(** * SecureStorage: a facade over a Web Storage object

    Shallow embedding of [src/index.ts].  The class [SecureStorage<T extends
    Storage>] wraps a backing store and three caller-supplied functions
    ([hash], [encrypt], [decrypt]); every method is a short pipeline of
    transform, delegate, transform.

    - The backing store is the TypeScript interface [Storage]; it becomes the
      type class [Storage] below, and the store object itself (held by
      reference in the field [this.storage], possibly shared by several
      facades) is the state that is passed explicitly.  Its methods have the
      types the interface declares: the reads [getItem], [key] and [length]
      do not change the store, and the writes return nothing.
    - The three transforms are functions [string -> string], as the
      constructor declares them.
    - [JSON.stringify] and [JSON.parse] are builtins of the language; they are
      the type class [JSON].  [JSON.parse] throws [SyntaxError], so it returns
      in the error monad [result].
    - Methods that only read the store return [result _] or a plain value;
      methods that write return the new store.

    [web_storage] and [JsonText] are concrete instances of the two
    interfaces, on which the methods can be run. *)

From Stdlib Require Import ZArith Ascii String.
From stdpp Require Import gmap strings list fin_maps pretty.
From Equations Require Import Equations.

Local Open Scope string_scope.

(** ** Exceptions *)

Inductive exn : Type :=
| SyntaxError (msg : string).

Inductive result (A : Type) : Type :=
| Ok (a : A)
| Throw (e : exn).
Arguments Ok {A} a.
Arguments Throw {A} e.

#[global] Instance result_ret : MRet result := fun A a => Ok a.

#[global] Instance result_bind : MBind result := fun A B f m =>
  match m with
  | Ok a => f a
  | Throw e => Throw e
  end.

(** [Array.prototype.map] with a callback that may throw is [mapM] in this
    monad: elements are visited left to right and the first exception aborts
    the whole call. *)
Definition array_map {A B : Type} (f : A -> result B) (l : list A) : result (list B) :=
  mapM f l.

(** ** The interfaces the facade is written against *)

(** The DOM interface [Storage]: [getItem], [setItem], [removeItem], [clear],
    [key] and the read-only property [length].  [S] is the type of states of
    the store object. *)
Class Storage (S : Type) : Type := {
  storage_getItem : string -> S -> option string;
  storage_setItem : string -> string -> S -> S;
  storage_removeItem : string -> S -> S;
  storage_clear : S -> S;
  storage_key : nat -> S -> option string;
  storage_length : S -> nat
}.

(** The global [JSON] object, over the type [Value] of values the caller
    stores ([any] in the source).  [null] is the JavaScript [null]. *)
Class JSON (Value : Type) : Type := {
  null : Value;
  JSON_stringify : Value -> string;
  JSON_parse : string -> result Value
}.

(** ** The class [SecureStorage] *)

(** [const through = (data) => data] *)
Definition through {T : Type} (data : T) : T := data.

(** The optional configuration bundle of the constructor. *)
Record Options : Type := {
  opt_hash : option (string -> string);
  opt_encrypt : option (string -> string);
  opt_decrypt : option (string -> string)
}.

(** The default argument [options = {}]. *)
Definition no_options : Options :=
  {| opt_hash := None; opt_encrypt := None; opt_decrypt := None |}.

(** The private fields other than [storage]. *)
Record SecureStorage : Type := {
  hash : string -> string;
  encrypt : string -> string;
  decrypt : string -> string
}.

(** [options.f || through] *)
Definition or_through (f : option (string -> string)) : string -> string :=
  match f with
  | Some g => g
  | None => through
  end.

Definition constructor (options : Options) : SecureStorage :=
  {| hash := or_through (opt_hash options);
     encrypt := or_through (opt_encrypt options);
     decrypt := or_through (opt_decrypt options) |}.

Section Methods.
Context {S Value : Type} {storage : Storage S} {json : JSON Value}.

Definition getItem (this : SecureStorage) (key : string) (s : S) : result Value :=
  let hashedKey := hash this key in
  let value := storage_getItem hashedKey s in
  match value with
  | None => Ok null
  | Some value =>
      let decryptedValue := decrypt this value in
      JSON_parse decryptedValue
  end.

Definition setItem (this : SecureStorage) (key : string) (value : Value) (s : S) : S :=
  let hashedKey := hash this key in
  let stringifiedValue := JSON_stringify value in
  let encryptedValue := encrypt this stringifiedValue in
  storage_setItem hashedKey encryptedValue s.

Definition removeItem (this : SecureStorage) (key : string) (s : S) : S :=
  let hashedKey := hash this key in
  storage_removeItem hashedKey s.

Definition clear (this : SecureStorage) (s : S) : S :=
  storage_clear s.

Definition key (this : SecureStorage) (id : nat) (s : S) : option string :=
  storage_key id s.

Definition length (this : SecureStorage) (s : S) : nat :=
  storage_length s.

(** The loop of [keys]: [for (let i = 0; i < this.length; i++)], started at
    [i] with the array [keys] built so far.  The bound [this.length] is read
    again at every iteration. *)
Equations keys_loop (this : SecureStorage) (s : S) (i : nat) (keys : list string)
  : list string by wf (length this s - i) lt :=
  keys_loop this s i keys with decide (i < length this s) := {
    | left _ =>
        match key this i s with
        | Some key => keys_loop this s (i + 1) (keys ++ [key])
        | None => keys_loop this s (i + 1) keys
        end
    | right _ => keys
  }.
Next Obligation. lia. Qed.
Next Obligation. lia. Qed.

Definition keys (this : SecureStorage) (s : S) : list string :=
  keys_loop this s 0 [].

Definition values (this : SecureStorage) (s : S) : result (list Value) :=
  array_map (fun key => getItem this key s) (keys this s).

Definition entries (this : SecureStorage) (s : S) : result (list (string * Value)) :=
  array_map (fun key => v ← getItem this key s; Ok (key, v)) (keys this s).

End Methods.

(** ** [getItem] when the caller's functions throw *)

(** [hash], [encrypt] and [decrypt] are code of the caller, and a JavaScript
    function may throw instead of returning.  [getItem] above is the method
    for functions that return; [getItem_throwing] is the same method, line by
    line, for functions that may throw: each call of one of them is a step
    of the error monad, so an exception leaves the method at the call. *)
Record ThrowingStorage : Type := {
  hash_throwing : string -> result string;
  encrypt_throwing : string -> result string;
  decrypt_throwing : string -> result string
}.

(** The facade whose functions always return. *)
Definition returning (this : SecureStorage) : ThrowingStorage :=
  {| hash_throwing key := Ok (hash this key);
     encrypt_throwing value := Ok (encrypt this value);
     decrypt_throwing value := Ok (decrypt this value) |}.

Definition getItem_throwing {S Value : Type} {storage : Storage S} {json : JSON Value}
    (this : ThrowingStorage) (key : string) (s : S) : result Value :=
  hashedKey ← hash_throwing this key;
  let value := storage_getItem hashedKey s in
  match value with
  | None => Ok null
  | Some value =>
      decryptedValue ← decrypt_throwing this value;
      JSON_parse decryptedValue
  end.

(** ** The state of a Web Storage object *)

(** A Web Storage object holds a list of key/value pairs with unique keys;
    the order in which [key(n)] enumerates them is left to the user agent.
    A finite map with its own enumeration order models it. *)
Abbreviation web_storage := (gmap string string).

#[global] Instance web_storage_Storage : Storage web_storage := {|
  storage_getItem k m := m !! k;
  storage_setItem k v m := <[k:=v]> m;
  storage_removeItem k m := delete k m;
  storage_clear _ := ∅;
  storage_key n m := (map_to_list m).*1 !! n;
  storage_length m := size m
|}.

(** ** A concrete [JSON]: the JSON data model and its text format *)

(** The closed variant of JSON values (null, booleans, numbers, strings,
    ordered arrays, string-keyed objects) with the compact text that
    [JSON.stringify] prints and a recursive-descent reader for JSON text.
    Numbers are the integers and strings are byte strings: a fraction, an
    exponent or an escape above [ÿ] is rejected by the reader. *)
Module JsonText.

#[warnings="-register-all"] Inductive value : Type :=
| Null
| Bool (b : bool)
| Number (n : Z)
| Str (s : string)
| Array (l : list value)
| Object (l : list (string * value)).

Definition dquote : ascii := "034"%char.
Definition backslash : ascii := "092"%char.

Definition hex_digit (n : N) : ascii :=
  ascii_of_N (if (n <? 10)%N then 48 + n else 87 + n).

Definition escape_char (c : ascii) : string :=
  let esc (e : ascii) := String backslash (String e EmptyString) in
  if Ascii.eqb c dquote then esc dquote
  else if Ascii.eqb c backslash then esc backslash
  else if Ascii.eqb c "008" then esc "b"%char
  else if Ascii.eqb c "009" then esc "t"%char
  else if Ascii.eqb c "010" then esc "n"%char
  else if Ascii.eqb c "012" then esc "f"%char
  else if Ascii.eqb c "013" then esc "r"%char
  else if (N_of_ascii c <? 32)%N then
    String backslash ("u00" +:+
      String (hex_digit (N_of_ascii c / 16)) (String (hex_digit (N_of_ascii c mod 16)) EmptyString))
  else String c EmptyString.

Fixpoint escape (s : string) : string :=
  match s with
  | EmptyString => EmptyString
  | String c s' => escape_char c +:+ escape s'
  end.

Definition quote (s : string) : string :=
  String dquote (escape s +:+ String dquote EmptyString).

Fixpoint join (sep : string) (l : list string) : string :=
  match l with
  | [] => EmptyString
  | [x] => x
  | x :: l' => x +:+ sep +:+ join sep l'
  end.

Fixpoint stringify (v : value) : string :=
  match v with
  | Null => "null"
  | Bool true => "true"
  | Bool false => "false"
  | Number n => pretty n
  | Str s => quote s
  | Array l => "[" +:+ join "," (map stringify l) +:+ "]"
  | Object l =>
      "{" +:+ join "," (map (fun m => quote m.1 +:+ ":" +:+ stringify m.2) l) +:+ "}"
  end.

(** *** Reading *)

Definition is_ws (c : ascii) : bool :=
  Ascii.eqb c " " || Ascii.eqb c "009" || Ascii.eqb c "010" || Ascii.eqb c "013".

Fixpoint skip_ws (s : string) : string :=
  match s with
  | String c s' => if is_ws c then skip_ws s' else s
  | EmptyString => s
  end.

(** [expect lit s]: [s] without its prefix [lit]. *)
Fixpoint expect (lit s : string) : option string :=
  match lit, s with
  | EmptyString, _ => Some s
  | String a lit', String b s' => if Ascii.eqb a b then expect lit' s' else None
  | String _ _, EmptyString => None
  end.

Definition digit_val (c : ascii) : option N :=
  let n := N_of_ascii c in
  if (48 <=? n)%N && (n <=? 57)%N then Some (n - 48)%N else None.

Definition hex_val (c : ascii) : option N :=
  let n := N_of_ascii c in
  if (48 <=? n)%N && (n <=? 57)%N then Some (n - 48)%N
  else if (97 <=? n)%N && (n <=? 102)%N then Some (n - 87)%N
  else if (65 <=? n)%N && (n <=? 70)%N then Some (n - 55)%N
  else None.

(** The digits at the front of [s], accumulated on [acc]. *)
Fixpoint read_digits (acc : N) (s : string) : N * string :=
  match s with
  | String c s' =>
      match digit_val c with
      | Some d => read_digits (10 * acc + d) s'
      | None => (acc, s)
      end
  | EmptyString => (acc, s)
  end.

(** After the digits of an integer no further digit and nothing of a
    fraction or exponent may follow. *)
Definition integer_ends (s : string) : bool :=
  match s with
  | String c _ =>
      negb (Ascii.eqb c "." || Ascii.eqb c "e" || Ascii.eqb c "E")
      && negb (bool_decide (is_Some (digit_val c)))
  | EmptyString => true
  end.

(** An unsigned JSON integer: [0], or a digit [1-9] followed by digits. *)
Definition read_nat (s : string) : option (N * string) :=
  match s with
  | String c s' =>
      d ← digit_val c;
      let '(n, rest) := if (d =? 0)%N then (0%N, s') else read_digits d s' in
      if integer_ends rest then Some (n, rest) else None
  | EmptyString => None
  end.

Definition read_number (s : string) : option (Z * string) :=
  match s with
  | String c s' =>
      if Ascii.eqb c "-"
      then '(n, rest) ← read_nat s'; Some (- Z.of_N n, rest)%Z
      else '(n, rest) ← read_nat s; Some (Z.of_N n, rest)
  | EmptyString => None
  end.

(** The character an escape sequence [\e] stands for; [\u] is read
    apart. *)
Definition unescape (e : ascii) : option ascii :=
  if Ascii.eqb e dquote then Some dquote
  else if Ascii.eqb e backslash then Some backslash
  else if Ascii.eqb e "/" then Some "/"%char
  else if Ascii.eqb e "b" then Some "008"%char
  else if Ascii.eqb e "t" then Some "009"%char
  else if Ascii.eqb e "n" then Some "010"%char
  else if Ascii.eqb e "f" then Some "012"%char
  else if Ascii.eqb e "r" then Some "013"%char
  else None.

(** Four hexadecimal digits naming a character up to 255. *)
Definition read_hex4 (a b c d : ascii) : option ascii :=
  a ← hex_val a; b ← hex_val b; c ← hex_val c; d ← hex_val d;
  if (a =? 0)%N && (b =? 0)%N then Some (ascii_of_N (16 * c + d)) else None.

(** The characters of a string literal after its opening quote, up to
    and without the closing quote. *)
Fixpoint read_string (s : string) : option (string * string) :=
  match s with
  | EmptyString => None
  | String c s' =>
      if Ascii.eqb c dquote then Some (EmptyString, s')
      else if Ascii.eqb c backslash then
        match s' with
        | String e s'' =>
            if Ascii.eqb e "u" then
              match s'' with
              | String h1 (String h2 (String h3 (String h4 s3))) =>
                  x ← read_hex4 h1 h2 h3 h4;
                  '(str, rest) ← read_string s3;
                  Some (String x str, rest)
              | _ => None
              end
            else
              x ← unescape e;
              '(str, rest) ← read_string s'';
              Some (String x str, rest)
        | EmptyString => None
        end
      else if (N_of_ascii c <? 32)%N then None
      else '(str, rest) ← read_string s'; Some (String c str, rest)
  end.

(** The recursive descent.  [fuel] bounds the nesting of calls; each call
    consumes at least one character within two levels. *)
Fixpoint read_value (fuel : nat) (s : string) {struct fuel} : option (value * string) :=
  match fuel with
  | O => None
  | Datatypes.S fuel =>
      match skip_ws s with
      | EmptyString => None
      | String c rest =>
          if Ascii.eqb c "n" then rest ← expect "ull" rest; Some (Null, rest)
          else if Ascii.eqb c "t" then rest ← expect "rue" rest; Some (Bool true, rest)
          else if Ascii.eqb c "f" then rest ← expect "alse" rest; Some (Bool false, rest)
          else if Ascii.eqb c dquote then '(str, rest) ← read_string rest; Some (Str str, rest)
          else if Ascii.eqb c "[" then
            match skip_ws rest with
            | EmptyString => None
            | String c' rest' =>
                if Ascii.eqb c' "]" then Some (Array [], rest')
                else '(l, rest) ← read_elements fuel rest; Some (Array l, rest)
            end
          else if Ascii.eqb c "{" then
            match skip_ws rest with
            | EmptyString => None
            | String c' rest' =>
                if Ascii.eqb c' "}" then Some (Object [], rest')
                else '(l, rest) ← read_members fuel rest; Some (Object l, rest)
            end
          else '(n, rest) ← read_number (String c rest); Some (Number n, rest)
      end
  end
with read_elements (fuel : nat) (s : string) {struct fuel} : option (list value * string) :=
  match fuel with
  | O => None
  | Datatypes.S fuel =>
      '(v, rest) ← read_value fuel s;
      match skip_ws rest with
      | EmptyString => None
      | String c rest =>
          if Ascii.eqb c "," then '(l, rest) ← read_elements fuel rest; Some (v :: l, rest)
          else if Ascii.eqb c "]" then Some ([v], rest)
          else None
      end
  end
with read_members (fuel : nat) (s : string) {struct fuel}
  : option (list (string * value) * string) :=
  match fuel with
  | O => None
  | Datatypes.S fuel =>
      match skip_ws s with
      | EmptyString => None
      | String c rest =>
          if Ascii.eqb c dquote then
            '(k, rest) ← read_string rest;
            match skip_ws rest with
            | EmptyString => None
            | String c rest =>
                if Ascii.eqb c ":" then
                  '(v, rest) ← read_value fuel rest;
                  match skip_ws rest with
                  | EmptyString => None
                  | String c rest =>
                      if Ascii.eqb c "," then
                        '(l, rest) ← read_members fuel rest; Some ((k, v) :: l, rest)
                      else if Ascii.eqb c "}" then Some ([(k, v)], rest)
                      else None
                  end
                else None
            end
          else None
      end
  end.

(** [JSON.parse]: one value, surrounded by white space only. *)
Definition parse (text : string) : result value :=
  match read_value (2 * String.length text + 2) text with
  | Some (v, rest) =>
      match skip_ws rest with
      | EmptyString => Ok v
      | String _ _ => Throw (SyntaxError "Unexpected non-whitespace character after JSON")
      end
  | None => Throw (SyntaxError "Unexpected token or end of JSON input")
  end.

#[global] Instance JsonText_JSON : JSON value := {|
  null := Null;
  JSON_stringify := stringify;
  JSON_parse := parse
|}.

(** *** Notions for the round trip *)

(** The number of nodes of a value, an upper bound on the fuel that reading
    its text takes. *)
Fixpoint nodes (v : value) : nat :=
  match v with
  | Array l => Datatypes.S (list_sum (map (fun v => Datatypes.S (nodes v)) l))
  | Object l => Datatypes.S (list_sum (map (fun m => Datatypes.S (nodes m.2)) l))
  | _ => 1
  end.

(** The first character of a printed integer: a digit or the sign. *)
Definition starts_number (c : ascii) : bool :=
  bool_decide (is_Some (digit_val c)) || Ascii.eqb c "-".

(** What the text of a value starts with. *)
Definition starts_value (c : ascii) : bool :=
  starts_number c || Ascii.eqb c "n" || Ascii.eqb c "t" || Ascii.eqb c "f"
  || Ascii.eqb c dquote || Ascii.eqb c "[" || Ascii.eqb c "{".

(** The text of a member of an object. *)
Definition member_text (m : string * value) : string :=
  quote m.1 +:+ ":" +:+ stringify m.2.

(** A value is read back from its text, whatever follows the text, as long
    as it cannot be taken for more of a number. *)
Definition reads_back (v : value) : Prop :=
  ∀ rest fuel,
    integer_ends rest = true → (nodes v ≤ fuel)%nat →
    read_value fuel (stringify v +:+ rest) = Some (v, rest).

End JsonText.

(** ** The contract of the backing store *)

(** [keys] as the specification words it: the keys found at the ordinal
    positions [0 .. count-1], in order, without the positions at which the
    store answers that there is no key. *)
Definition keys_by_position {S : Type} `{!Storage S} (this : SecureStorage) (s : S)
  : list string :=
  omap (fun i => key this i s) (seq 0 (length this s)).

(** What a Web Storage object guarantees to its callers: [getItem] reads what
    [setItem] wrote last, [removeItem] and [clear] delete, removing a key that
    is not there does nothing, and the positions [0 .. length-1] enumerate
    every stored key once, in an order of the store's choosing. *)
Class StorageLaws (S : Type) `{!Storage S} : Prop := {
  getItem_setItem_eq k v (s : S) :
    storage_getItem k (storage_setItem k v s) = Some v;
  getItem_setItem_ne k k' v (s : S) :
    k ≠ k' → storage_getItem k' (storage_setItem k v s) = storage_getItem k' s;
  getItem_removeItem_eq k (s : S) :
    storage_getItem k (storage_removeItem k s) = None;
  getItem_removeItem_ne k k' (s : S) :
    k ≠ k' → storage_getItem k' (storage_removeItem k s) = storage_getItem k' s;
  removeItem_absent k (s : S) :
    storage_getItem k s = None → storage_removeItem k s = s;
  getItem_clear k (s : S) :
    storage_getItem k (storage_clear s) = None;
  length_clear (s : S) :
    storage_length (storage_clear s) = 0;
  key_NoDup (s : S) :
    NoDup (omap (fun i => storage_key i s) (seq 0 (storage_length s)));
  key_getItem k (s : S) :
    k ∈ omap (fun i => storage_key i s) (seq 0 (storage_length s))
    ↔ is_Some (storage_getItem k s)
}.

(** ** The properties the facade is specified by *)

Definition idempotent (t : string → string) : Prop :=
  ∀ x, t (t x) = t x.

(** [d] is the exact inverse of [e]: decoding an encoded text gives it back. *)
Definition exact_inverse (d e : string → string) : Prop :=
  ∀ x, d (e x) = x.

(** A value is JSON-representable when serialising and reading it back gives
    a deeply equal value. *)
Definition JSON_representable {Value : Type} `{!JSON Value} (v : Value) : Prop :=
  JSON_parse (JSON_stringify v) = Ok v.

(** A store without entries. *)
Definition storage_empty {S : Type} `{!Storage S} (s : S) : Prop :=
  ∀ k, storage_getItem k s = None.

(** Writing a list of logical entries, first to last. *)
Definition setItems {S Value : Type} `{!Storage S} `{!JSON Value}
    (this : SecureStorage) (l : list (string * Value)) (s : S) : S :=
  foldl (fun s e => setItem this e.1 e.2 s) s l.

(** The physical key and the logical value of a logical entry. *)
Definition physical {Value : Type} (this : SecureStorage) (e : string * Value)
  : string * Value :=
  (hash this e.1, e.2).

(** ** Configurations used in the examples *)

(** An idempotent key transform that is not the identity: a key is filed
    under its first character. *)
Definition first_char (k : string) : string :=
  match k with
  | EmptyString => EmptyString
  | String c _ => String c EmptyString
  end.

(** A key transform that is not idempotent: it appends a mark. *)
Definition marked (k : string) : string := k +:+ "!".

(** An encoder that is its own decoder: the lowest bit of every character is
    flipped. *)
Definition flip_char (c : ascii) : ascii :=
  let (b0, b1, b2, b3, b4, b5, b6, b7) := c in
  Ascii (negb b0) b1 b2 b3 b4 b5 b6 b7.

Fixpoint scramble (x : string) : string :=
  match x with
  | EmptyString => EmptyString
  | String c x' => String (flip_char c) (scramble x')
  end.

(** [new SecureStorage(storage)] *)
Definition plain : SecureStorage := constructor no_options.

(** [new SecureStorage(storage, { hash, encrypt, decrypt })] *)
Definition filed_scrambled : SecureStorage :=
  constructor {| opt_hash := Some first_char;
                 opt_encrypt := Some scramble;
                 opt_decrypt := Some scramble |}.

(** [new SecureStorage(storage, { hash })] *)
Definition marked_plain : SecureStorage :=
  constructor {| opt_hash := Some marked; opt_encrypt := None; opt_decrypt := None |}.

(** A decoder and an encoder that throw on every text. *)
Definition failing_transform (text : string) : result string :=
  Throw (SyntaxError "transform failed").

(** A deserialiser that throws on every text. *)
Definition rejecting_parse (text : string) : result JsonText.value :=
  Throw (SyntaxError "rejected").

(** [new SecureStorage(storage, { hash })] with the idempotent transform. *)
Definition filed : SecureStorage :=
  constructor {| opt_hash := Some first_char; opt_encrypt := None; opt_decrypt := None |}.

(** The empty Web Storage object. *)
Definition empty_storage : web_storage := ∅.

Definition sample_value : JsonText.value :=
  JsonText.Object
    [("x", JsonText.Number 1);
     ("tags", JsonText.Array [JsonText.Str "a"; JsonText.Null; JsonText.Bool true])].

(** Two logical entries with distinct transformed keys under [first_char]. *)
Definition sample_entries : list (string * JsonText.value) :=
  [("alpha", JsonText.Number 1); ("beta", JsonText.Array [JsonText.Bool true])].

(** Two distinct logical keys that [first_char] sends to one physical key. *)
Definition colliding_entries : list (string * JsonText.value) :=
  [("ab", JsonText.Number 1); ("ac", JsonText.Number 2)].

(** Two logical keys of which the second is the transform of the first
    under [marked]. *)
Definition chained_entries : list (string * JsonText.value) :=
  [("a", JsonText.Number 1); ("a!", JsonText.Number 2)].

(** A store holding a text that is not JSON. *)
Definition corrupted_storage : web_storage :=
  storage_setItem "k" "{oops" empty_storage.

(** A store with the two entries of [sample_entries], written through the
    facade without options. *)
Definition sample_storage : web_storage :=
  setItems plain sample_entries empty_storage.

(** The options [{ encrypt }]: an encoder and no decoder. *)
Definition encrypt_only : Options :=
  {| opt_hash := None; opt_encrypt := Some scramble; opt_decrypt := None |}.

(** The options [{ hash }]. *)
Definition hash_only : Options :=
  {| opt_hash := Some first_char; opt_encrypt := None; opt_decrypt := None |}.

(** A facade that reads what [filed_scrambled] writes: the same key
    transform, its decoder, and no encoder of its own. *)
Definition filed_reader : SecureStorage :=
  constructor {| opt_hash := Some first_char; opt_encrypt := None;
                 opt_decrypt := Some scramble |}.

(** ** Lemmas *)

(** Looking up every position of a list gives the list back. *)
Lemma omap_lookup_seq {A : Type} (l : list A) :
  omap (fun i => l !! i) (seq 0 (List.length l)) = l.
Proof.
  induction l as [|a l IH] using rev_ind; [done|].
  rewrite length_app. change (List.length [a]) with 1.
  rewrite Nat.add_1_r, seq_S, omap_app. cbn [omap list_omap Nat.add].
  rewrite lookup_app_r, Nat.sub_diag by lia. cbn [lookup list_lookup].
  f_equal. etrans; [|exact IH].
  apply list_omap_ext, Forall2_same_length_lookup_2; [done|].
  intros i x y Hx Hy. assert (x = y) as <- by congruence.
  apply lookup_seq in Hx as [-> Hi]. simpl. by rewrite lookup_app_l.
Qed.

(** The finite-map model keeps the contract. *)
#[global] Instance web_storage_laws : StorageLaws web_storage.
Proof.
  split; simpl.
  - intros. apply lookup_insert_eq.
  - intros. by apply lookup_insert_ne.
  - intros. apply lookup_delete_eq.
  - intros. by apply lookup_delete_ne.
  - intros. by apply delete_id.
  - intros. apply lookup_empty.
  - intros. apply map_size_empty.
  - intros s. rewrite <- length_map_to_list, <- (length_fmap fst).
    rewrite omap_lookup_seq. apply NoDup_fst_map_to_list.
  - intros k s. rewrite <- length_map_to_list, <- (length_fmap fst).
    rewrite omap_lookup_seq. rewrite list_elem_of_fmap. split.
    + intros [[k' v] [-> Hin]]. apply elem_of_map_to_list in Hin. by exists v.
    + intros [v Hv]. exists (k, v). split; [done|]. by apply elem_of_map_to_list.
Qed.

Lemma array_map_Ok {A B : Type} (f : A → result B) (l : list A) (l' : list B) :
  array_map f l = Ok l' ↔ Forall2 (fun x y => f x = Ok y) l l'.
Proof.
  unfold array_map. revert l'. induction l as [|a l IH]; intros l'; simpl.
  - split.
    + intros [= <-]. constructor.
    + intros ->%Forall2_nil_inv_l. done.
  - split.
    + destruct (f a) as [b|e] eqn:Hfa; simpl; [|done].
      destruct (mapM f l) as [bs|e] eqn:Hl; simpl; [|done].
      intros [= <-]. constructor; [done|]. by apply IH.
    + intros (b & bs & Hb & Hbs & ->)%Forall2_cons_inv_l.
      rewrite Hb. simpl. apply IH in Hbs. rewrite Hbs. done.
Qed.

Section Facade.
Context {S Value : Type} {storage : Storage S} {json : JSON Value}.
Implicit Types (this : SecureStorage) (s : S) (v : Value).

Lemma keys_loop_spec this s i acc :
  keys_loop this s i acc
  = (acc ++ omap (fun j => key this j s) (seq i (length this s - i)))%list.
Proof.
  funelim (keys_loop this s i acc).
  - replace (length this s - i) with (Datatypes.S (length this s - (i + 1))) by lia.
    cbn [seq]. replace (Datatypes.S i) with (i + 1) by lia. cbn [omap list_omap].
    destruct (key this i s) as [k|] eqn:Hk.
    + rewrite H. by rewrite <- app_assoc.
    + by rewrite H0.
  - replace (length this s - i) with 0 by lia. simpl. by rewrite app_nil_r.
Qed.

(** C7.  [keys()] is the sequence of the keys that [key(i)] answers at the
    positions [0], [1], ..., [length - 1], in that order, where a position
    at which the store answers [null] contributes nothing: the keys are the
    physical keys in the enumeration order of the backing store.  This
    holds for every state of every backing store. *)
Theorem keys_enumerates_positions this s :
  keys this s = keys_by_position this s.
Proof.
  unfold keys, keys_by_position. rewrite keys_loop_spec.
  by rewrite Nat.sub_0_r.
Qed.

Lemma getItem_throwing_returning this k s :
  getItem_throwing (returning this) k s = getItem this k s.
Proof. done. Qed.

(** C4.  When the backing store has no entry at the transformed key,
    [getItem] returns [null] and does not throw, and neither the decoder nor
    the deserialiser is applied: the answer is [null] whichever decoder [d]
    and deserialiser [p] the facade carries, and it is [null] as well when
    the decoder and the deserialiser are functions that throw on every
    text, which would make the method throw at their first call. *)
Theorem getItem_absent_returns_null this k s :
  storage_getItem (hash this k) s = None →
  (∀ (d : string → string) (p : string → result Value),
     getItem (json := {| null := null; JSON_stringify := JSON_stringify; JSON_parse := p |})
       {| hash := hash this; encrypt := encrypt this; decrypt := d |} k s
     = Ok null)
  ∧ (∀ (h e d : string → result string) (p : string → result Value),
       h k = Ok (hash this k) →
       getItem_throwing
         (json := {| null := null; JSON_stringify := JSON_stringify; JSON_parse := p |})
         {| hash_throwing := h; encrypt_throwing := e; decrypt_throwing := d |} k s
       = Ok null).
Proof.
  intros Habsent. split.
  - intros d p. unfold getItem. cbn. by rewrite Habsent.
  - intros h e d p Hh. unfold getItem_throwing. cbn. rewrite Hh. cbn.
    by rewrite Habsent.
Qed.

(** C9.  When the raw text stored at the transformed key decodes to a text
    that [JSON.parse] rejects, [getItem] throws that very error: nothing
    catches it and no value is put in its place. *)
Theorem getItem_malformed_throws this k s raw e :
  storage_getItem (hash this k) s = Some raw →
  JSON_parse (decrypt this raw) = Throw e →
  getItem this k s = Throw e.
Proof.
  intros Hraw Hparse. unfold getItem. cbn. by rewrite Hraw.
Qed.

Section Lawful.
Context {laws : StorageLaws S}.

Lemma getItem_raw this k s raw v :
  storage_getItem (hash this k) s = Some raw →
  JSON_parse (decrypt this raw) = Ok v →
  getItem this k s = Ok v.
Proof. intros Hraw Hparse. unfold getItem. cbn. by rewrite Hraw. Qed.

Lemma getItem_missing this k s :
  storage_getItem (hash this k) s = None → getItem this k s = Ok null.
Proof. intros Hraw. unfold getItem. cbn. by rewrite Hraw. Qed.

Lemma storage_getItem_setItem this k v s :
  storage_getItem (hash this k) (setItem this k v s)
  = Some (encrypt this (JSON_stringify v)).
Proof. unfold setItem. cbn. apply getItem_setItem_eq. Qed.

Lemma storage_getItem_setItem_other this k v s p :
  p ≠ hash this k →
  storage_getItem p (setItem this k v s) = storage_getItem p s.
Proof. intros Hp. unfold setItem. cbn. by apply getItem_setItem_ne. Qed.

(** C1.  A JSON-representable value written under a key is read back
    under that key, deeply equal, when the decoder is the exact inverse
    of the encoder.  [s'] is the store at the time of the read: any state
    whose raw entry at the transformed key is still the one [setItem]
    wrote.  The key transform is a function, so it is deterministic. *)
Theorem setItem_then_getItem this k v s s' :
  JSON_representable v →
  exact_inverse (decrypt this) (encrypt this) →
  storage_getItem (hash this k) s'
    = storage_getItem (hash this k) (setItem this k v s) →
  getItem this k s' = Ok v.
Proof.
  intros Hv Hinv Hsame.
  rewrite storage_getItem_setItem in Hsame.
  apply (getItem_raw _ _ _ _ _ Hsame).
  by rewrite Hinv.
Qed.

(** C8.  [setItem] hands the backing store the transformed key and the
    encoded serialisation of the value, and afterwards the entry at the
    transformed key is exactly that text, whatever was stored there
    before. *)
Theorem setItem_stores_physical_entry this k v s :
  setItem this k v s
    = storage_setItem (hash this k) (encrypt this (JSON_stringify v)) s
  ∧ storage_getItem (hash this k) (setItem this k v s)
    = Some (encrypt this (JSON_stringify v)).
Proof. split; [done | apply storage_getItem_setItem]. Qed.

(** C10.  [setItem] leaves the raw text at every physical key other than
    the transformed key as it was. *)
Theorem setItem_frame this k v s p :
  p ≠ hash this k →
  storage_getItem p (setItem this k v s) = storage_getItem p s.
Proof. apply storage_getItem_setItem_other. Qed.

(** C5.  After [clear()], called through any facade, the entry count is
    [0] and every key reads as [null] through every facade on the same
    backing store, also a key that was written just before. *)
Theorem clear_empties_store this other k s :
  length other (clear this s) = 0
  ∧ getItem other k (clear this s) = Ok null
  ∧ ∀ v, getItem other k (clear this (setItem other k v s)) = Ok null.
Proof.
  unfold length, clear. split; [apply length_clear|].
  split; [|intros v]; apply getItem_missing, getItem_clear.
Qed.

(** C6.  After [removeItem(k)], [getItem(k)] returns [null]; removing a
    key that has no entry leaves the store as it is, so a second
    [removeItem(k)] changes nothing.  [removeItem] has no failing case. *)
Theorem removeItem_then_getItem this k s :
  getItem this k (removeItem this k s) = Ok null
  ∧ (storage_getItem (hash this k) s = None → removeItem this k s = s)
  ∧ removeItem this k (removeItem this k s) = removeItem this k s.
Proof.
  unfold removeItem. cbn. split; [|split].
  - apply getItem_missing, getItem_removeItem_eq.
  - apply removeItem_absent.
  - apply removeItem_absent, getItem_removeItem_eq.
Qed.

Lemma keys_storage_key this s :
  keys this s = omap (fun i => storage_key i s) (seq 0 (storage_length s)).
Proof.
  unfold keys. rewrite keys_loop_spec. unfold length. by rewrite Nat.sub_0_r.
Qed.

Lemma keys_NoDup this s : NoDup (keys this s).
Proof. rewrite keys_storage_key. apply key_NoDup. Qed.

Lemma elem_of_keys this s p :
  p ∈ keys this s ↔ is_Some (storage_getItem p s).
Proof. rewrite keys_storage_key. apply key_getItem. Qed.

Lemma setItems_cons this k v (l : list (string * Value)) s :
  setItems this ((k, v) :: l) s = setItems this l (setItem this k v s).
Proof. done. Qed.

Lemma storage_getItem_setItems_other this (l : list (string * Value)) s p :
  p ∉ hash this <$> l.*1 →
  storage_getItem p (setItems this l s) = storage_getItem p s.
Proof.
  revert s. induction l as [|[k v] l IH]; intros s Hp; [done|].
  rewrite !fmap_cons in Hp. apply not_elem_of_cons in Hp as [Hk Hp].
  rewrite setItems_cons, IH by done. by apply storage_getItem_setItem_other.
Qed.

Lemma storage_getItem_setItems this (l : list (string * Value)) s k v :
  NoDup (hash this <$> l.*1) →
  (k, v) ∈ l →
  storage_getItem (hash this k) (setItems this l s)
  = Some (encrypt this (JSON_stringify v)).
Proof.
  revert s. induction l as [|[k' v'] l IH]; intros s Hnd Hin.
  { by apply elem_of_nil in Hin. }
  rewrite !fmap_cons in Hnd. apply NoDup_cons in Hnd as [Hfresh Hnd].
  rewrite setItems_cons.
  apply elem_of_cons in Hin as [[= -> ->]|Hin].
  - rewrite storage_getItem_setItems_other by done.
    apply storage_getItem_setItem.
  - by apply IH.
Qed.

Lemma keys_setItems this (l : list (string * Value)) s :
  storage_empty s →
  NoDup (hash this <$> l.*1) →
  keys this (setItems this l s) ≡ₚ hash this <$> l.*1.
Proof.
  intros Hempty Hnd. apply NoDup_Permutation; [apply keys_NoDup|done|].
  intros p. rewrite elem_of_keys. split.
  - intros Hsome. destruct (decide (p ∈ hash this <$> l.*1)) as [|Hout]; [done|].
    rewrite storage_getItem_setItems_other, Hempty in Hsome by done.
    by destruct Hsome.
  - intros (k & -> & ((k' & v) & -> & Hin)%list_elem_of_fmap)%list_elem_of_fmap.
    cbn. by erewrite storage_getItem_setItems.
Qed.

(** C2, amended.  With an idempotent key transform and a decoder that is
    the exact inverse of the encoder, after writing into an empty store
    [N] logical entries whose transformed keys are pairwise distinct,
    [entries()] returns without throwing exactly [N] pairs: a permutation
    of the pairs (transformed key, value written), whatever order the
    backing store enumerates in. *)
Theorem entries_after_setItems this (l : list (string * Value)) s :
  idempotent (hash this) →
  exact_inverse (decrypt this) (encrypt this) →
  Forall JSON_representable l.*2 →
  NoDup (hash this <$> l.*1) →
  storage_empty s →
  ∃ es, entries this (setItems this l s) = Ok es
        ∧ es ≡ₚ physical this <$> l
        ∧ List.length es = List.length l.
Proof.
  intros Hidem Hinv Hrepr Hnd Hempty.
  pose proof (keys_setItems this l s Hempty Hnd) as Hperm.
  replace (hash this <$> l.*1) with (map fst (physical this <$> l)) in Hperm.
  2:{ clear. induction l as [|[k v] l IH]; [done|]. cbn. by f_equal. }
  apply Permutation_map_inv in Hperm as (es & Hkeys & Hes).
  exists es. split; [|split].
  - unfold entries. rewrite Hkeys. apply array_map_Ok.
    change (map fst es) with (fst <$> es). apply Forall2_fmap_l, Forall_Forall2_diag.
    apply Forall_forall. intros [p v] Hin.
    rewrite <- Hes in Hin.
    apply list_elem_of_fmap in Hin as ([k v'] & [= -> ->] & Hin). cbn.
    erewrite getItem_raw; [done| |].
    + rewrite Hidem. by apply storage_getItem_setItems.
    + rewrite Hinv. rewrite Forall_forall in Hrepr. apply Hrepr.
      apply list_elem_of_fmap. by exists (k, v').
  - by symmetry.
  - rewrite <- Hes. by rewrite length_fmap.
Qed.

End Lawful.

Lemma values_lookup this s i p vs :
  keys this s !! i = Some p →
  values this s = Ok vs →
  ∃ v, vs !! i = Some v ∧ getItem this p s = Ok v.
Proof.
  unfold values. intros Hp Hvs%array_map_Ok.
  destruct (Forall2_lookup_l _ _ _ _ _ Hvs Hp) as (v & Hv & Hget). eauto.
Qed.

Lemma entries_lookup this s i p es :
  keys this s !! i = Some p →
  entries this s = Ok es →
  ∃ v, es !! i = Some (p, v) ∧ getItem this p s = Ok v.
Proof.
  unfold entries. intros Hp Hes%array_map_Ok.
  destruct (Forall2_lookup_l _ _ _ _ _ Hes Hp) as (e & He & Hget).
  destruct (getItem this p s) as [v|]; [|done]. cbn in Hget.
  injection Hget as <-. eauto.
Qed.

(** C3, amended.  For every key transform, idempotent or not, the lookup
    that [values()] and [entries()] perform for the physical key [p] at
    position [i] of [keys()] applies the transform to the already transformed
    key and reads the backing store at [hash p].  When an entry is stored
    there, position [i] of [values()] and of [entries()] holds the decoding
    of that entry's text, whichever key it was written under.  It holds
    [null] for every stored entry whose doubly transformed key has no entry
    in the backing store; when every stored entry misses in this way,
    [values()] is all [null].  In full, [values()] and [entries()] are the
    reads at [hash q] for the keys [q] of [keys()], in order. *)
Theorem values_lookup_miss this s i p :
  keys this s !! i = Some p →
  (∀ raw, storage_getItem (hash this p) s = Some raw →
          getItem this p s =@{result Value} JSON_parse (decrypt this raw)
          ∧ (∀ vs : list Value, values this s = Ok vs →
               ∃ v, vs !! i = Some v ∧ JSON_parse (decrypt this raw) = Ok v)
          ∧ (∀ es : list (string * Value), entries this s = Ok es →
               ∃ v, es !! i = Some (p, v) ∧ JSON_parse (decrypt this raw) = Ok v))
  ∧ (storage_getItem (hash this p) s = None →
     getItem this p s =@{result Value} Ok null
     ∧ (∀ vs, values this s = Ok vs → vs !! i = Some null)
     ∧ (∀ es, entries this s = Ok es → es !! i = Some (p, null)))
  ∧ ((∀ q, q ∈ keys this s → storage_getItem (hash this q) s = None) →
     values this s =@{result (list Value)} Ok (const null <$> keys this s)
     ∧ entries this s = Ok ((fun q => (q, null)) <$> keys this s))
  ∧ values this s
    =@{result (list Value)} array_map
        (fun q => match storage_getItem (hash this q) s with
                  | Some raw => JSON_parse (decrypt this raw)
                  | None => Ok null
                  end)
        (keys this s)
  ∧ entries this s
    =@{result (list (string * Value))} array_map
        (fun q => v ← match storage_getItem (hash this q) s with
                      | Some raw => JSON_parse (decrypt this raw)
                      | None => Ok null
                      end;
                  Ok (q, v))
        (keys this s).
Proof.
  intros Hi.
  assert (∀ q, storage_getItem (hash this q) s = None → getItem this q s = Ok null)
    as Hmiss.
  { intros q Hq. unfold getItem. cbn. by rewrite Hq. }
  assert (∀ q raw, storage_getItem (hash this q) s = Some raw →
                   getItem this q s = JSON_parse (decrypt this raw)) as Hhit.
  { intros q raw Hq. unfold getItem. cbn. by rewrite Hq. }
  split; [|split; [|split; [|split]]].
  - intros raw Hraw. split; [by apply Hhit|]. split.
    + intros vs Hvs. destruct (values_lookup _ _ _ _ _ Hi Hvs) as (v & Hv & Hget).
      exists v. by rewrite <- (Hhit p raw Hraw).
    + intros es Hes. destruct (entries_lookup _ _ _ _ _ Hi Hes) as (v & Hv & Hget).
      exists v. by rewrite <- (Hhit p raw Hraw).
  - intros Hp. split; [by apply Hmiss|]. split.
    + intros vs Hvs. destruct (values_lookup _ _ _ _ _ Hi Hvs) as (v & Hv & Hget).
      rewrite Hmiss in Hget by done. by injection Hget as <-.
    + intros es Hes. destruct (entries_lookup _ _ _ _ _ Hi Hes) as (v & Hv & Hget).
      rewrite Hmiss in Hget by done. by injection Hget as <-.
  - intros Hall. split.
    + apply array_map_Ok, Forall2_fmap_r, Forall_Forall2_diag, Forall_forall.
      intros q Hq. apply Hmiss, Hall, Hq.
    + apply array_map_Ok, Forall2_fmap_r, Forall_Forall2_diag, Forall_forall.
      intros q Hq. rewrite Hmiss by apply Hall, Hq. done.
  - unfold values. f_equal. 
  - unfold entries. f_equal.
Qed.

End Facade.

(** ** The facade over the finite-map store and the JSON text format *)

Import JsonText.

Lemma flip_char_involutive c : flip_char (flip_char c) = c.
Proof. by destruct c as [[] ? ? ? ? ? ? ?]. Qed.

Lemma scramble_involutive : exact_inverse scramble scramble.
Proof.
  intros x. induction x as [|c x IH]; [done|].
  cbn. by rewrite flip_char_involutive, IH.
Qed.

Lemma first_char_idempotent : idempotent first_char.
Proof. by intros [|c k]. Qed.

Lemma through_inverse : exact_inverse through through.
Proof. by intros x. Qed.

Lemma empty_storage_empty : storage_empty empty_storage.
Proof. intros k. apply lookup_empty. Qed.

(** ** The JSON text format reads back what it prints *)

Lemma append_String c s t : String c s +:+ t = String c (s +:+ t).
Proof. done. Qed.

Lemma append_assoc s t u : (s +:+ t) +:+ u = s +:+ (t +:+ u).
Proof. induction s as [|c s IH]; [done|]. by rewrite !append_String, IH. Qed.

Lemma append_nil_r s : s +:+ EmptyString = s.
Proof. induction s as [|c s IH]; [done|]. by rewrite append_String, IH. Qed.

Lemma length_append s t :
  String.length (s +:+ t) = String.length s + String.length t.
Proof. induction s as [|c s IH]; [done|]. rewrite append_String. cbn. by rewrite IH. Qed.

(** *** String literals *)

Lemma read_string_escape_char c tail :
  read_string (escape_char c +:+ tail)
  = '(str, rest) ← read_string tail; Some (String c str, rest).
Proof.
  destruct c as [[] [] [] [] [] [] [] []]; reflexivity.
Qed.

Lemma read_string_escape s rest :
  read_string (escape s +:+ String dquote rest) = Some (s, rest).
Proof.
  induction s as [|c s IH]; [done|].
  cbn [escape]. rewrite append_assoc, read_string_escape_char, IH. done.
Qed.

Lemma read_string_quote s rest :
  ∃ tail, quote s +:+ rest = String dquote tail ∧ read_string tail = Some (s, rest).
Proof.
  exists (escape s +:+ String dquote rest). split; [|apply read_string_escape].
  unfold quote. by rewrite append_String, append_assoc.
Qed.

(** *** Integers *)

Lemma digit_val_pretty_N_char d :
  (d < 10)%N → digit_val (pretty_N_char d) = Some d.
Proof.
  intros Hd.
  assert (d = 0 ∨ d = 1 ∨ d = 2 ∨ d = 3 ∨ d = 4 ∨ d = 5 ∨ d = 6 ∨ d = 7
          ∨ d = 8 ∨ d = 9)%N as Hcases by lia.
  destruct Hcases as [->|[->|[->|[->|[->|[->|[->|[->|[->| ->]]]]]]]]]; reflexivity.
Qed.

Lemma pretty_N_go_append x s rest :
  pretty_N_go x s +:+ rest = pretty_N_go x (s +:+ rest).
Proof.
  revert s. induction (N.lt_wf_0 x) as [x _ IH]; intros s.
  destruct (decide (x = 0)%N) as [->|Hx]; [by rewrite !pretty_N_go_0|].
  rewrite (pretty_N_go_step x s), (pretty_N_go_step x (s +:+ rest)) by lia. rewrite IH; [reflexivity|].
  apply N.div_lt; lia.
Qed.

(** Reading the digits of [x] multiplies what was read before by a power of
    ten [k] and adds [x]. *)
Lemma read_digits_pretty_N_go x :
  ∃ k, ∀ acc s, read_digits acc (pretty_N_go x s) = read_digits (acc * k + x) s.
Proof.
  induction (N.lt_wf_0 x) as [x _ IH].
  destruct (decide (x = 0)%N) as [->|Hx].
  { exists 1%N. intros acc s. rewrite pretty_N_go_0. f_equal. lia. }
  destruct (IH (x `div` 10)%N) as [k Hk]; [apply N.div_lt; lia|].
  exists (10 * k)%N. intros acc s.
  rewrite pretty_N_go_step, Hk by lia. cbn [read_digits].
  rewrite digit_val_pretty_N_char by (apply N.mod_lt; lia).
  f_equal. pose proof (N.div_mod x 10). lia.
Qed.

(** The text of a positive number starts with a digit other than [0]. *)
Lemma pretty_N_go_head x s :
  (0 < x)%N →
  ∃ c tail d, pretty_N_go x s = String c tail
              ∧ digit_val c = Some d ∧ (0 < d)%N.
Proof.
  revert s. induction (N.lt_wf_0 x) as [x _ IH]; intros s Hx.
  rewrite pretty_N_go_step by done.
  destruct (decide (x < 10)%N) as [Hsmall|Hbig].
  - rewrite N.div_small, pretty_N_go_0, N.mod_small by done.
    eexists _, _, x. split; [done|]. split; [|done].
    by apply digit_val_pretty_N_char.
  - apply IH; [apply N.div_lt; lia|]. apply N.div_str_pos. lia.
Qed.

Lemma read_digits_stop acc s :
  integer_ends s = true → read_digits acc s = (acc, s).
Proof.
  destruct s as [|c s]; [done|]. cbn. intros [_ Hc]%andb_true_iff.
  destruct (digit_val c); [|done].
  apply negb_true_iff, bool_decide_eq_false in Hc. destruct Hc. by eexists.
Qed.

Lemma read_nat_pretty (x : N) rest :
  integer_ends rest = true →
  read_nat (pretty x +:+ rest) = Some (x, rest).
Proof.
  intros Hrest. unfold pretty, pretty_N.
  destruct (decide (x = 0)%N) as [->|Hx].
  { change (read_nat (String "0" rest) = Some (0%N, rest)).
    unfold read_nat. change (digit_val "0") with (Some 0%N). cbn. by rewrite Hrest. }
  rewrite pretty_N_go_append. change (EmptyString +:+ rest) with rest.
  destruct (pretty_N_go_head x rest) as (c & tail & d & Htext & Hc & Hd); [lia|].
  destruct (read_digits_pretty_N_go x) as [k Hk].
  specialize (Hk 0%N rest). rewrite Htext in Hk |- *.
  cbn [read_digits] in Hk. rewrite Hc in Hk.
  unfold read_nat. rewrite Hc. cbn.
  destruct (N.eqb_spec d 0) as [->|_]; [lia|].
  replace (10 * 0 + d)%N with d in Hk by lia.
  rewrite Hk, read_digits_stop by done. cbn. by rewrite Hrest.
Qed.

Lemma pretty_N_head (x : N) rest :
  ∃ c tail, pretty x +:+ rest = String c tail ∧ is_Some (digit_val c).
Proof.
  unfold pretty, pretty_N. destruct (decide (x = 0)%N) as [->|Hx].
  { by eexists _, _. }
  rewrite pretty_N_go_append.
  destruct (pretty_N_go_head x (EmptyString +:+ rest)) as (c & tail & d & -> & Hc & _); [lia|].
  by eexists _, _.
Qed.

Lemma digit_not_minus c : is_Some (digit_val c) → Ascii.eqb c "-" = false.
Proof.
  intros [d Hd]. destruct (Ascii.eqb_spec c "-") as [->|]; [done|done].
Qed.

Lemma read_number_pretty (n : Z) rest :
  integer_ends rest = true →
  read_number (pretty n +:+ rest) = Some (n, rest).
Proof.
  intros Hrest. unfold pretty, pretty_Z. destruct n as [|p|p].
  - change (read_number (String "0" rest) = Some (0%Z, rest)).
    unfold read_number, read_nat. change (digit_val "0") with (Some 0%N).
    cbn. by rewrite Hrest.
  - change (pretty p) with (pretty (Npos p)).
    destruct (pretty_N_head (Npos p) rest) as (c & tail & Htext & Hc).
    pose proof (read_nat_pretty (Npos p) rest Hrest) as Hread.
    rewrite Htext in Hread |- *. unfold read_number.
    rewrite digit_not_minus, Hread by done. done.
  - change (pretty p) with (pretty (Npos p)).
    change ("-" +:+ pretty (N.pos p)) with (String "-" (pretty (N.pos p))).
    rewrite append_String. unfold read_number.
    change (Ascii.eqb "-" "-") with true. cbn iota.
    rewrite read_nat_pretty by done. done.
Qed.

(** *** Values *)

Lemma value_nested_ind (P : value → Prop) :
  P Null →
  (∀ b, P (Bool b)) →
  (∀ n, P (Number n)) →
  (∀ s, P (Str s)) →
  (∀ l, Forall P l → P (Array l)) →
  (∀ l, Forall (fun m => P m.2) l → P (Object l)) →
  ∀ v, P v.
Proof.
  intros HNull HBool HNumber HStr HArray HObject.
  fix IH 1. intros [|b|n|s|l|l].
  - exact HNull.
  - apply HBool.
  - apply HNumber.
  - apply HStr.
  - apply HArray. induction l as [|v l IHl]; constructor; [apply IH|exact IHl].
  - apply HObject. induction l as [|[k v] l IHl]; constructor; [apply IH|exact IHl].
Qed.

Lemma stringify_head v rest :
  ∃ c tail, stringify v +:+ rest = String c tail ∧ starts_value c = true.
Proof.
  destruct v as [|[]|n|s|l|l]; try by eexists _, _.
  destruct n as [|p|p].
  - by eexists _, _.
  - destruct (pretty_N_head (Npos p) rest) as (c & tail & Htext & Hc).
    exists c, tail. split; [done|]. unfold starts_value, starts_number.
    by rewrite bool_decide_eq_true_2.
  - by eexists _, _.
Qed.

(** A number is read by the last branch of [read_value]. *)
Lemma read_value_number fuel c tail :
  starts_number c = true →
  read_value (Datatypes.S fuel) (String c tail)
  = '(n, rest) ← read_number (String c tail); Some (Number n, rest).
Proof.
  destruct c as [[] [] [] [] [] [] [] []]; intros Hc;
    solve [discriminate Hc | reflexivity].
Qed.

(** The look-ahead after an opening bracket or brace sees the first
    character of a value, not the closing one. *)
Lemma skip_ws_starts_value c tail :
  starts_value c = true →
  skip_ws (String c tail) = String c tail
  ∧ Ascii.eqb c "]" = false ∧ Ascii.eqb c "}" = false.
Proof.
  destruct c as [[] [] [] [] [] [] [] []]; intros Hc;
    solve [discriminate Hc | done].
Qed.

Lemma pretty_Z_head (n : Z) rest :
  ∃ c tail, pretty n +:+ rest = String c tail ∧ starts_number c = true.
Proof.
  destruct n as [|p|p]; try by eexists _, _.
  destruct (pretty_N_head (Npos p) rest) as (c & tail & Htext & Hc).
  exists c, tail. split; [done|]. unfold starts_number.
  by rewrite bool_decide_eq_true_2.
Qed.

Lemma read_value_array fuel c tail :
  starts_value c = true →
  read_value (Datatypes.S fuel) (String "[" (String c tail))
  = '(l, rest) ← read_elements fuel (String c tail); Some (Array l, rest).
Proof.
  destruct c as [[] [] [] [] [] [] [] []]; intros Hc;
    solve [discriminate Hc | reflexivity].
Qed.

Lemma read_value_object fuel c tail :
  starts_value c = true →
  read_value (Datatypes.S fuel) (String "{" (String c tail))
  = '(l, rest) ← read_members fuel (String c tail); Some (Object l, rest).
Proof.
  destruct c as [[] [] [] [] [] [] [] []]; intros Hc;
    solve [discriminate Hc | reflexivity].
Qed.

Lemma append_singleton c t : String c EmptyString +:+ t = String c t.
Proof. done. Qed.

Lemma join_cons sep x y l : join sep (x :: y :: l) = x +:+ sep +:+ join sep (y :: l).
Proof. done. Qed.

Lemma read_elements_join v l rest fuel :
  Forall reads_back (v :: l) →
  (list_sum (map (fun v => Datatypes.S (nodes v)) (v :: l)) ≤ fuel)%nat →
  read_elements fuel (join "," (map stringify (v :: l)) +:+ String "]" rest)
  = Some (v :: l, rest).
Proof.
  revert v fuel. induction l as [|w l IH]; intros v fuel Hall Hfuel.
  - destruct fuel as [|fuel]; [cbn in Hfuel; lia|].
    cbn in Hfuel. cbn [map join read_elements].
    rewrite (Forall_inv Hall) by (done || lia). done.
  - destruct fuel as [|fuel]; [cbn in Hfuel; lia|].
    cbn [map] in *. rewrite join_cons, !append_assoc, append_singleton.
    cbn [read_elements].
    rewrite (Forall_inv Hall) by (done || cbn in Hfuel; lia).
    cbn -[read_elements join]. rewrite IH; [done|by apply Forall_inv_tail in Hall|].
    cbn in Hfuel |- *. lia.
Qed.

Lemma quote_append k t :
  quote k +:+ t = String dquote (escape k +:+ String dquote t).
Proof. unfold quote. by rewrite append_String, append_assoc. Qed.

Lemma read_members_join m l rest fuel :
  Forall (fun m => reads_back m.2) (m :: l) →
  (list_sum (map (fun m => Datatypes.S (nodes m.2)) (m :: l)) ≤ fuel)%nat →
  read_members fuel (join "," (map member_text (m :: l)) +:+ String "}" rest)
  = Some (m :: l, rest).
Proof.
  revert m fuel. induction l as [|m' l IH]; intros [k v] fuel Hall Hfuel.
  - destruct fuel as [|fuel]; [cbn in Hfuel; lia|].
    cbn in Hfuel. cbn [map join]. unfold member_text. cbn [fst snd].
    rewrite !append_assoc, append_singleton, quote_append.
    cbn -[read_string read_value]. rewrite read_string_escape.
    cbn -[read_string read_value].
    pose proof (Forall_inv Hall) as Hv. cbn in Hv.
    rewrite Hv by (done || lia). done.
  - destruct fuel as [|fuel]; [cbn in Hfuel; lia|].
    cbn [map] in *. rewrite join_cons. unfold member_text at 1. cbn [fst snd].
    rewrite !append_assoc, !append_singleton, quote_append.
    cbn -[read_string read_value join]. rewrite read_string_escape.
    cbn -[read_string read_value join].
    pose proof (Forall_inv Hall) as Hv. cbn in Hv.
    rewrite Hv by (done || cbn in Hfuel; lia).
    cbn -[join]. rewrite IH; [done|by apply Forall_inv_tail in Hall|].
    cbn in Hfuel |- *. lia.
Qed.

Lemma stringify_Array l :
  stringify (Array l) = "[" +:+ join "," (map stringify l) +:+ "]".
Proof. done. Qed.

Lemma stringify_Object l :
  stringify (Object l) = "{" +:+ join "," (map member_text l) +:+ "}".
Proof. done. Qed.

Lemma read_value_stringify v : reads_back v.
Proof.
  induction v as [|b|n|s|l IH|l IH] using value_nested_ind;
    intros rest fuel Hrest Hfuel;
    (destruct fuel as [|fuel]; [cbn in Hfuel; lia|]).
  - reflexivity.
  - by destruct b.
  - cbn [stringify].
    destruct (pretty_Z_head n rest) as (c & tail & Htext & Hc).
    rewrite Htext, read_value_number, <- Htext, read_number_pretty by done. done.
  - cbn [stringify]. rewrite quote_append.
    cbn -[read_string]. by rewrite read_string_escape.
  - destruct l as [|v l]; [reflexivity|].
    rewrite stringify_Array, !append_assoc, !append_singleton.
    pose proof (read_elements_join v l rest fuel IH) as Hread.
    destruct (stringify_head v EmptyString) as (c & tail & Htext & Hc).
    assert (∃ tail', join "," (map stringify (v :: l)) +:+ String "]" rest
                     = String c tail') as [tail' Hjoin].
    { rewrite append_nil_r in Htext. destruct l as [|w l]; cbn [map].
      - cbn [join]. rewrite Htext. by eexists.
      - rewrite join_cons, Htext. by eexists. }
    rewrite Hjoin in Hread |- *. rewrite read_value_array, Hread; [done| |done].
    cbn in Hfuel |- *. lia.
  - destruct l as [|[k v] l]; [reflexivity|].
    rewrite stringify_Object, !append_assoc, !append_singleton.
    pose proof (read_members_join (k, v) l rest fuel IH) as Hread.
    assert (∃ tail', join "," (map member_text ((k, v) :: l)) +:+ String "}" rest
                     = String dquote tail') as [tail' Hjoin].
    { destruct l as [|m l]; cbn [map].
      - cbn [join]. unfold member_text. cbn [fst]. rewrite !append_assoc, quote_append.
        by eexists.
      - rewrite join_cons. unfold member_text at 1. cbn [fst].
        rewrite !append_assoc, quote_append. by eexists. }
    rewrite Hjoin in Hread |- *. rewrite read_value_object, Hread; [done| |done].
    cbn in Hfuel |- *. lia.
Qed.

(** *** Enough fuel *)

Lemma length_join_nodes {A : Type} (text : A → string) (weight : A → nat) l :
  Forall (fun x => (weight x ≤ String.length (text x))%nat) l →
  (list_sum (map (fun x => Datatypes.S (weight x)) l)
   ≤ Datatypes.S (String.length (join "," (map text l))))%nat.
Proof.
  induction 1 as [|x l Hx Hl IH]; [cbn; lia|].
  destruct l as [|y l].
  - cbn. lia.
  - cbn [map] in *. rewrite join_cons, !length_append.
    unfold list_sum in *. cbn [fold_right foldr String.length] in *. lia.
Qed.

Lemma nodes_le_length v : (nodes v ≤ String.length (stringify v))%nat.
Proof.
  induction v as [|b|n|s|l IH|l IH] using value_nested_ind.
  - cbn. lia.
  - destruct b; cbn; lia.
  - destruct (pretty_Z_head n EmptyString) as (c & tail & Htext & _).
    rewrite append_nil_r in Htext. cbn [stringify nodes]. rewrite Htext. cbn. lia.
  - cbn. lia.
  - rewrite stringify_Array, !length_append.
    pose proof (length_join_nodes stringify nodes l IH).
    cbn [nodes String.length]. lia.
  - rewrite stringify_Object, !length_append.
    pose proof (length_join_nodes member_text (fun m => nodes m.2) l) as Hlen.
    cbn [nodes String.length]. cut (Forall
      (fun m => (nodes m.2 ≤ String.length (member_text m))%nat) l).
    { intros Hall%Hlen. lia. }
    eapply Forall_impl; [exact IH|]. intros [k v] Hv. cbn in Hv |- *.
    unfold member_text. rewrite !length_append. cbn [snd]. lia.
Qed.

(** Every value of the JSON data model is JSON-representable. *)
Theorem parse_stringify v : parse (stringify v) = Ok v.
Proof.
  unfold parse. rewrite <- (append_nil_r (stringify v)) at 2.
  rewrite read_value_stringify; [done|done|].
  pose proof (nodes_le_length v). lia.
Qed.

Corollary every_value_JSON_representable v : JSON_representable v.
Proof. apply parse_stringify. Qed.

(** On the finite-map store and the JSON text format every value is read
    back, with no side condition on the value. *)
Corollary web_storage_round_trip this k (v : value) (s : web_storage) :
  exact_inverse (decrypt this) (encrypt this) →
  getItem this k (setItem this k v s) = Ok v.
Proof.
  intros Hinv. eapply getItem_raw; [apply storage_getItem_setItem|].
  rewrite Hinv. apply parse_stringify.
Qed.

(** ** Scenarios, witnesses and counterexamples *)

(** The scenario of the specification: write, count, read, enumerate,
    remove. *)
Example scenario_write_read_remove :
  length plain (setItem plain "a" sample_value empty_storage) = 1
  ∧ getItem plain "a" (setItem plain "a" sample_value empty_storage) = Ok sample_value
  ∧ keys plain (setItem plain "a" sample_value empty_storage) = [hash plain "a"]
  ∧ length plain (removeItem plain "a" (setItem plain "a" sample_value empty_storage)) = 0.
Proof. vm_compute. done. Qed.

(** With an encoder, the physical text is the encoding of the quoted JSON
    string and the value still reads back. *)
Example scenario_encoded_string :
  storage_getItem "g" (setItem filed_scrambled "greeting" (Str "hello") empty_storage)
  = Some (scramble (String dquote ("hello" +:+ String dquote EmptyString)))
  ∧ getItem filed_scrambled "greeting"
      (setItem filed_scrambled "greeting" (Str "hello") empty_storage)
    = Ok (Str "hello").
Proof. vm_compute. done. Qed.

Lemma setItem_then_getItem_witness :
  getItem filed_scrambled "alpha"
    (setItem plain "beta" (Str "other")
       (setItem filed_scrambled "alpha" sample_value empty_storage))
  = Ok sample_value
  ∧ getItem plain "alpha" (setItem plain "alpha" sample_value empty_storage)
    = Ok sample_value.
Proof.
  split.
  - apply (setItem_then_getItem filed_scrambled "alpha" sample_value empty_storage).
    + apply every_value_JSON_representable.
    + apply scramble_involutive.
    + vm_compute. reflexivity.
  - apply (setItem_then_getItem plain "alpha" sample_value empty_storage).
    + apply every_value_JSON_representable.
    + apply through_inverse.
    + reflexivity.
Defined.

Lemma getItem_absent_returns_null_witness :
  storage_getItem (hash filed_scrambled "missing") empty_storage = None
  ∧ getItem
      (json := {| null := Null; JSON_stringify := stringify; JSON_parse := rejecting_parse |})
      {| hash := first_char; encrypt := scramble; decrypt := first_char |}
      "missing" empty_storage
    = Ok Null
  ∧ getItem_throwing
      (json := {| null := Null; JSON_stringify := stringify; JSON_parse := rejecting_parse |})
      {| hash_throwing := fun key => Ok (first_char key);
         encrypt_throwing := failing_transform;
         decrypt_throwing := failing_transform |}
      "missing" empty_storage
    = Ok Null.
Proof.
  assert (storage_getItem (hash filed_scrambled "missing") empty_storage = None)
    as Habsent by reflexivity.
  destruct (getItem_absent_returns_null (json := JsonText_JSON)
              filed_scrambled "missing" empty_storage Habsent) as [Hpure Hthrowing].
  split; [exact Habsent|]. split.
  - exact (Hpure first_char rejecting_parse).
  - exact (Hthrowing (fun key => Ok (first_char key)) failing_transform failing_transform
             rejecting_parse eq_refl).
Defined.

Lemma getItem_malformed_throws_witness :
  storage_getItem (hash plain "k") corrupted_storage = Some "{oops"
  ∧ getItem plain "k" corrupted_storage
    = Throw (SyntaxError "Unexpected token or end of JSON input").
Proof.
  split; [reflexivity|].
  apply (getItem_malformed_throws plain "k" corrupted_storage "{oops").
  - reflexivity.
  - vm_compute. reflexivity.
Defined.

Lemma setItem_stores_physical_entry_witness :
  storage_getItem "a"
    (setItem filed_scrambled "alpha" (Number 7)
       (setItem filed_scrambled "author" (Str "old") empty_storage))
  = Some (scramble "7").
Proof.
  exact (proj2 (setItem_stores_physical_entry filed_scrambled "alpha" (Number 7)
                  (setItem filed_scrambled "author" (Str "old") empty_storage))).
Defined.

Lemma setItem_frame_witness :
  "b" ≠ hash filed_scrambled "alpha"
  ∧ storage_getItem "b"
      (setItem filed_scrambled "alpha" (Number 7)
         (setItem filed_scrambled "beta" (Str "kept") empty_storage))
    = storage_getItem "b" (setItem filed_scrambled "beta" (Str "kept") empty_storage).
Proof.
  assert ("b" ≠ hash filed_scrambled "alpha") as Hne by (vm_compute; discriminate).
  split; [exact Hne|].
  exact (setItem_frame filed_scrambled "alpha" (Number 7)
           (setItem filed_scrambled "beta" (Str "kept") empty_storage) "b" Hne).
Defined.

Lemma clear_empties_store_witness :
  length plain (clear filed_scrambled (setItems plain sample_entries empty_storage)) = 0
  ∧ getItem plain "alpha"
      (clear filed_scrambled (setItems plain sample_entries empty_storage))
    = Ok Null.
Proof.
  destruct (clear_empties_store filed_scrambled plain "alpha"
              (setItems plain sample_entries empty_storage)) as (Hlen & Hget & _).
  split; [exact Hlen | exact Hget].
Defined.

Lemma removeItem_then_getItem_witness :
  getItem filed_scrambled "alpha"
    (removeItem filed_scrambled "alpha"
       (setItem filed_scrambled "alpha" sample_value empty_storage))
  = Ok Null
  ∧ removeItem filed_scrambled "alpha"
      (removeItem filed_scrambled "alpha"
         (setItem filed_scrambled "alpha" sample_value empty_storage))
    = removeItem filed_scrambled "alpha"
        (setItem filed_scrambled "alpha" sample_value empty_storage).
Proof.
  destruct (removeItem_then_getItem filed_scrambled "alpha"
              (setItem filed_scrambled "alpha" sample_value empty_storage))
    as (Hget & _ & Htwice).
  split; [exact Hget | exact Htwice].
Defined.

Lemma entries_after_setItems_witness :
  ∃ es, entries filed_scrambled (setItems filed_scrambled sample_entries empty_storage) = Ok es
        ∧ es ≡ₚ [("a", Number 1); ("b", Array [Bool true])]
        ∧ List.length es = 2.
Proof.
  apply (entries_after_setItems filed_scrambled sample_entries empty_storage).
  - apply first_char_idempotent.
  - apply scramble_involutive.
  - repeat constructor.
  - apply (bool_decide_unpack _). vm_compute. exact I.
  - apply empty_storage_empty.
Defined.

(** The claim about [entries()] fails as stated: [first_char] is idempotent and the two logical keys
    are distinct, but they share a physical key, so the second write
    replaces the first and [entries()] has one pair, not two. *)
Lemma entries_collision_counterexample :
  idempotent (hash filed)
  ∧ exact_inverse (decrypt filed) (encrypt filed)
  ∧ Forall JSON_representable colliding_entries.*2
  ∧ NoDup colliding_entries.*1
  ∧ storage_empty empty_storage
  ∧ entries filed (setItems filed colliding_entries empty_storage) = Ok [("a", Number 2)]
  ∧ ¬ ∃ es, entries filed (setItems filed colliding_entries empty_storage) = Ok es
            ∧ List.length es = List.length colliding_entries.
Proof.
  split; [apply first_char_idempotent|].
  split; [apply through_inverse|].
  split; [repeat constructor|].
  split; [apply (bool_decide_unpack _); vm_compute; exact I|].
  split; [apply empty_storage_empty|].
  split; [vm_compute; reflexivity|].
  intros (es & Hes & Hlen). vm_compute in Hes. injection Hes as <-. discriminate.
Qed.

(** Under [marked] the one stored entry sits at ["a!"]; its lookup reads at
    ["a!!"], finds nothing and produces [null].  Once ["a!"] is written as
    well, the lookup for ["a!"] finds the entry at ["a!!"] and produces its
    value. *)
Lemma values_lookup_miss_witness :
  keys marked_plain (setItem marked_plain "a" (Number 1) empty_storage) !! 0 = Some "a!"
  ∧ storage_getItem (hash marked_plain "a!")
      (setItem marked_plain "a" (Number 1) empty_storage) = None
  ∧ getItem marked_plain "a!" (setItem marked_plain "a" (Number 1) empty_storage) = Ok Null
  ∧ values marked_plain (setItem marked_plain "a" (Number 1) empty_storage) = Ok [Null]
  ∧ entries marked_plain (setItem marked_plain "a" (Number 1) empty_storage)
    = Ok [("a!", Null)]
  ∧ keys marked_plain (setItems marked_plain chained_entries empty_storage) !! 1
    = Some "a!"
  ∧ storage_getItem (hash marked_plain "a!")
      (setItems marked_plain chained_entries empty_storage) = Some "2"
  ∧ ∃ v, [Null; Number 2] !! 1 = Some v ∧ JSON_parse (decrypt marked_plain "2") = Ok v.
Proof.
  assert (keys marked_plain (setItem marked_plain "a" (Number 1) empty_storage) !! 0
          = Some "a!") as Hkey by reflexivity.
  destruct (values_lookup_miss marked_plain
              (setItem marked_plain "a" (Number 1) empty_storage) 0 "a!" Hkey)
    as (_ & Hmiss & Hall & _).
  assert (keys marked_plain (setItems marked_plain chained_entries empty_storage) !! 1
          = Some "a!") as Hkey' by (vm_compute; reflexivity).
  assert (storage_getItem (hash marked_plain "a!")
            (setItems marked_plain chained_entries empty_storage) = Some "2") as Hraw
    by (vm_compute; reflexivity).
  destruct (values_lookup_miss marked_plain
              (setItems marked_plain chained_entries empty_storage) 1 "a!" Hkey')
    as (Hhit & _).
  split; [exact Hkey|]. split; [reflexivity|]. split; [apply Hmiss; reflexivity|].
  split; [|split; [|split; [exact Hkey'|split; [exact Hraw|]]]].
  - apply Hall. intros q Hq. vm_compute in Hq.
    apply list_elem_of_singleton in Hq as ->. reflexivity.
  - apply Hall. intros q Hq. vm_compute in Hq.
    apply list_elem_of_singleton in Hq as ->. reflexivity.
  - destruct (Hhit "2" Hraw) as (_ & Hvalues & _).
    apply Hvalues. vm_compute. reflexivity.
Defined.

(** The claim about the lookups of [values()] fails as stated: [marked] is not idempotent, the entry written under
    ["a"] sits at the physical key ["a!"], and its doubly transformed key
    ["a!!"] differs from ["a!"]; yet the lookup for ["a!"] finds the entry
    written under ["a!"] and produces its value [2], not [null]. *)
Lemma values_lookup_hit_counterexample :
  ¬ idempotent (hash marked_plain)
  ∧ storage_getItem (hash marked_plain "a")
      (setItems marked_plain chained_entries empty_storage) = Some "1"
  ∧ hash marked_plain (hash marked_plain "a") ≠ hash marked_plain "a"
  ∧ hash marked_plain "a" ∈ keys marked_plain (setItems marked_plain chained_entries empty_storage)
  ∧ getItem marked_plain (hash marked_plain "a")
      (setItems marked_plain chained_entries empty_storage) = Ok (Number 2)
  ∧ ∃ es, entries marked_plain (setItems marked_plain chained_entries empty_storage) = Ok es
          ∧ (hash marked_plain "a", Number 2) ∈ es.
Proof.
  split; [intros Hidem; specialize (Hidem "a"); vm_compute in Hidem; discriminate|].
  split; [vm_compute; reflexivity|].
  split; [vm_compute; discriminate|].
  split; [vm_compute; set_solver|].
  split; [vm_compute; reflexivity|].
  eexists. split; [vm_compute; reflexivity|]. vm_compute. set_solver.
Qed.

(** ** Further properties of the methods *)

Lemma length_omap_le {A B : Type} (f : A → option B) (l : list A) :
  (List.length (omap f l) ≤ List.length l)%nat.
Proof.
  induction l as [|a l IH]; [done|]. cbn. destruct (f a); cbn; lia.
Qed.

Lemma omap_all_Some {A B : Type} (f : A → option B) (l : list A) :
  Forall (fun a => is_Some (f a)) l → Some <$> omap f l = f <$> l.
Proof.
  induction 1 as [|a l [b Hb] _ IH]; [done|]. cbn. rewrite Hb. cbn. by rewrite IH.
Qed.

(** [mapM] with a callback that pairs its argument with a result. *)
Lemma array_map_pair {A B : Type} (g : A → result B) (l : list A) :
  array_map (fun a => b ← g a; Ok (a, b)) l
  = match array_map g l with
    | Ok bs => Ok (zip l bs)
    | Throw e => Throw e
    end.
Proof.
  unfold array_map. induction l as [|a l IH]; [done|]. cbn.
  destruct (g a) as [b|e]; cbn; [|done].
  rewrite IH. by destruct (mapM g l).
Qed.

(** [mapM] throws the error of the first element on which the callback
    throws. *)
Lemma array_map_Throw {A B : Type} (g : A → result B) (l : list A) e :
  array_map g l = Throw e
  ↔ ∃ l1 a l2, l = (l1 ++ a :: l2)%list
               ∧ Forall (fun x => ∃ b, g x = Ok b) l1
               ∧ g a = Throw e.
Proof.
  unfold array_map. split.
  - revert e. induction l as [|a l IH]; intros e; cbn; [done|].
    destruct (g a) as [b|e'] eqn:Hga; cbn.
    + destruct (mapM g l) as [bs|e'] eqn:Hl; cbn; [done|]. intros [= ->].
      destruct (IH _ eq_refl) as (l1 & a' & l2 & -> & Hall & Hthrow).
      exists (a :: l1), a', l2. split; [done|]. split; [|done].
      constructor; [by exists b|done].
    + intros [= ->]. exists [], a, l. by repeat split.
  - intros (l1 & a & l2 & -> & Hall & Hthrow).
    induction Hall as [|x l1 [b Hb] _ IH]; cbn.
    + by rewrite Hthrow.
    + rewrite Hb. cbn. by rewrite IH.
Qed.

Section More.
Context {S Value : Type} {storage : Storage S} {json : JSON Value}.
Implicit Types (this other : SecureStorage) (s : S) (v : Value).

(** X1.  [keys()] never has more elements than the store counts entries. *)
Theorem keys_length_le this s :
  (List.length (keys this s) ≤ length this s)%nat.
Proof.
  unfold keys. rewrite keys_loop_spec. cbn [app].
  etrans; [apply length_omap_le|]. rewrite length_seq. lia.
Qed.

Lemma keys_Some_key this s :
  (∀ i, (i < length this s)%nat → is_Some (key this i s)) →
  Some <$> keys this s = (fun i => key this i s) <$> seq 0 (length this s).
Proof.
  intros Hdense. unfold keys. rewrite keys_loop_spec. cbn [app]. rewrite Nat.sub_0_r.
  apply omap_all_Some, Forall_forall. intros i Hi%elem_of_seq. apply Hdense. lia.
Qed.

Lemma length_keys_dense this s :
  (∀ i, (i < length this s)%nat → is_Some (key this i s)) →
  List.length (keys this s) = length this s.
Proof.
  intros Hkeys%keys_Some_key.
  rewrite <- (length_fmap Some), Hkeys, length_fmap. apply length_seq.
Qed.

(** X2.  On a store that answers a key at every position below its count,
    [keys()] has exactly [length] elements and its element at position [i]
    is [key(i)]. *)
Theorem keys_lookup_key this s :
  (∀ i, (i < length this s)%nat → is_Some (key this i s)) →
  List.length (keys this s) = length this s
  ∧ ∀ i, (i < length this s)%nat → keys this s !! i = key this i s.
Proof.
  intros Hdense. split; [by apply length_keys_dense|].
  intros i Hi. pose proof (keys_Some_key this s Hdense) as Hkeys.
  apply (f_equal (fun l => l !! i)) in Hkeys.
  rewrite !list_lookup_fmap, lookup_seq_lt in Hkeys by done. cbn in Hkeys.
  destruct (keys this s !! i); by simplify_eq/=.
Qed.

(** X3.  The transforms play no part in [keys()]: every facade on a store
    returns the same physical keys, never a logical one recovered from
    them. *)
Theorem keys_same_for_every_facade this other s :
  keys this s = keys other s.
Proof. unfold keys. by rewrite !keys_loop_spec. Qed.

(** X4.  [entries()] is [keys()] paired position by position with
    [values()]: it returns exactly when [values()] returns, and throws the
    same error when [values()] throws. *)
Theorem entries_zip_keys_values this s :
  (∀ es, entries this s = Ok es ↔ es.*1 = keys this s ∧ values this s = Ok es.*2)
  ∧ (∀ vs, values this s = Ok vs →
           List.length vs = List.length (keys this s)
           ∧ entries this s = Ok (zip (keys this s) vs))
  ∧ (∀ e, entries this s = Throw e ↔ values this s = Throw e).
Proof.
  unfold entries, values. rewrite array_map_pair.
  destruct (array_map (fun key => getItem this key s) (keys this s)) as [vs|e] eqn:Hvs.
  - apply array_map_Ok, Forall2_length in Hvs.
    split; [|split].
    + intros es. split.
      * intros [= <-]. rewrite fst_zip, snd_zip by lia. done.
      * intros [Hk [= Hv]]. by rewrite <- Hk, Hv, zip_fst_snd.
    + intros ? [= <-]. done.
    + done.
  - split; [|split]; [|done|].
    + intros es. split; [done|]. by intros [_ ?].
    + intros e0. split; intros [= ->]; reflexivity.
Qed.

Lemma getItem_Throw this k s e :
  getItem this k s = Throw e
  ↔ ∃ raw, storage_getItem (hash this k) s = Some raw
           ∧ JSON_parse (decrypt this raw) = Throw e.
Proof.
  unfold getItem. cbn. destruct (storage_getItem (hash this k) s) as [raw|].
  - split; [by exists raw|]. by intros (? & [= <-] & ?).
  - split; [done|]. by intros (? & ? & _).
Qed.

Lemma getItem_same_raw this k s s' :
  storage_getItem (hash this k) s = storage_getItem (hash this k) s' →
  getItem this k s = getItem this k s'.
Proof. intros Hraw. unfold getItem. cbn. by rewrite Hraw. Qed.

(** X5.  [values()] throws exactly when some lookup throws: the error is the
    one [JSON.parse] raises on the decoded text found at the transform of
    the first physical key, in the order of [keys()], whose lookup fails.
    One such entry makes the whole call fail; no partial list is returned. *)
Theorem values_throws_first_malformed this s e :
  values this s = Throw e
  ↔ ∃ l1 p l2 raw,
      keys this s = (l1 ++ p :: l2)%list
      ∧ Forall (fun q => ∃ v, getItem this q s = Ok v) l1
      ∧ storage_getItem (hash this p) s = Some raw
      ∧ JSON_parse (decrypt this raw) = Throw e.
Proof.
  unfold values. rewrite array_map_Throw. split.
  - intros (l1 & p & l2 & Hk & Hall & (raw & Hraw & Hparse)%getItem_Throw).
    by exists l1, p, l2, raw.
  - intros (l1 & p & l2 & raw & Hk & Hall & Hraw & Hparse).
    exists l1, p, l2. split; [done|]. split; [done|].
    apply getItem_Throw. by exists raw.
Qed.

(** X19.  An exception of the caller's functions leaves [getItem] as it
    is: when [hash] throws, [getItem] throws that error whatever the store
    holds, and when [decrypt] throws on the text found at the transformed
    key, [getItem] throws that error and [JSON.parse] is not reached. *)
Theorem getItem_throwing_propagates (t : ThrowingStorage) k s e :
  (hash_throwing t k = Throw e → getItem_throwing t k s = Throw e)
  ∧ (∀ hk raw (p : string → result Value),
       hash_throwing t k = Ok hk →
       storage_getItem hk s = Some raw →
       decrypt_throwing t raw = Throw e →
       getItem_throwing
         (json := {| null := null; JSON_stringify := JSON_stringify; JSON_parse := p |})
         t k s = Throw e).
Proof.
  split.
  - intros Hh. unfold getItem_throwing. by rewrite Hh.
  - intros hk raw p Hh Hraw Hd. unfold getItem_throwing. rewrite Hh. cbn.
    rewrite Hraw. by rewrite Hd.
Qed.

Section MoreLawful.
Context {laws : StorageLaws S}.

Lemma storage_getItem_removeItem this k s :
  storage_getItem (hash this k) (removeItem this k s) = None.
Proof. unfold removeItem. cbn. apply getItem_removeItem_eq. Qed.

Lemma storage_getItem_removeItem_other this k s p :
  p ≠ hash this k →
  storage_getItem p (removeItem this k s) = storage_getItem p s.
Proof. intros Hp. unfold removeItem. cbn. by apply getItem_removeItem_ne. Qed.

Lemma elem_of_keys_setItem this k v s p :
  p ∈ keys this (setItem this k v s) ↔ p = hash this k ∨ p ∈ keys this s.
Proof.
  rewrite !elem_of_keys. destruct (decide (p = hash this k)) as [->|Hp].
  - rewrite storage_getItem_setItem. split; [by left|]. intros _. by eexists.
  - rewrite storage_getItem_setItem_other by done.
    split; [by right|]. by intros [?|?].
Qed.

Lemma elem_of_keys_removeItem this k s p :
  p ∈ keys this (removeItem this k s) ↔ p ≠ hash this k ∧ p ∈ keys this s.
Proof.
  rewrite !elem_of_keys. destruct (decide (p = hash this k)) as [->|Hp].
  - rewrite storage_getItem_removeItem. split; [by intros []|by intros []].
  - rewrite storage_getItem_removeItem_other by done.
    split; [by split|by intros [_ ?]].
Qed.

Lemma length_keys_setItem this k v s :
  List.length (keys this (setItem this k v s))
  = match storage_getItem (hash this k) s with
    | Some _ => List.length (keys this s)
    | None => Datatypes.S (List.length (keys this s))
    end.
Proof.
  destruct (storage_getItem (hash this k) s) as [raw|] eqn:Hraw.
  - apply Permutation_length, NoDup_Permutation; [apply keys_NoDup..|].
    intros p. rewrite elem_of_keys_setItem. split; [|by right].
    intros [->|Hp]; [|done]. apply elem_of_keys. by rewrite Hraw.
  - change (Datatypes.S (List.length (keys this s)))
      with (List.length (hash this k :: keys this s)).
    apply Permutation_length, NoDup_Permutation; [apply keys_NoDup| |].
    + apply NoDup_cons. split; [|apply keys_NoDup].
      rewrite elem_of_keys, Hraw. by intros [].
    + intros p. rewrite elem_of_keys_setItem, elem_of_cons. done.
Qed.

Lemma length_keys_removeItem this k s :
  List.length (keys this s)
  = match storage_getItem (hash this k) s with
    | Some _ => Datatypes.S (List.length (keys this (removeItem this k s)))
    | None => List.length (keys this (removeItem this k s))
    end.
Proof.
  destruct (storage_getItem (hash this k) s) as [raw|] eqn:Hraw.
  - change (Datatypes.S (List.length (keys this (removeItem this k s))))
      with (List.length (hash this k :: keys this (removeItem this k s))).
    apply Permutation_length, NoDup_Permutation; [apply keys_NoDup| |].
    + apply NoDup_cons. split; [|apply keys_NoDup].
      rewrite elem_of_keys_removeItem. by intros [].
    + intros p. rewrite elem_of_cons, elem_of_keys_removeItem.
      destruct (decide (p = hash this k)) as [->|Hp].
      * split; [by left|]. intros _. apply elem_of_keys. by rewrite Hraw.
      * split; [by right|]. by intros [?|[_ ?]].
  - unfold removeItem. cbn. by rewrite removeItem_absent.
Qed.

(** X6.  [setItem] adds the transformed key to [keys()] and nothing else:
    the list grows by one when the transformed key had no entry and keeps
    its size when an entry is overwritten. *)
Theorem keys_after_setItem this k v s :
  (∀ p, p ∈ keys this (setItem this k v s) ↔ p = hash this k ∨ p ∈ keys this s)
  ∧ List.length (keys this (setItem this k v s))
    = match storage_getItem (hash this k) s with
      | Some _ => List.length (keys this s)
      | None => Datatypes.S (List.length (keys this s))
      end.
Proof. split; [apply elem_of_keys_setItem | apply length_keys_setItem]. Qed.

(** X7.  [removeItem] takes the transformed key out of [keys()] and nothing
    else: the list shrinks by one when the transformed key had an entry and
    keeps its size otherwise. *)
Theorem keys_after_removeItem this k s :
  (∀ p, p ∈ keys this (removeItem this k s) ↔ p ≠ hash this k ∧ p ∈ keys this s)
  ∧ List.length (keys this s)
    = match storage_getItem (hash this k) s with
      | Some _ => Datatypes.S (List.length (keys this (removeItem this k s)))
      | None => List.length (keys this (removeItem this k s))
      end.
Proof. split; [apply elem_of_keys_removeItem | apply length_keys_removeItem]. Qed.

(** X18.  On a store that answers a key at every position below its count,
    in every state, the count [length] grows by one with a [setItem] on a
    transformed key without entry and stays with an overwrite; it shrinks by
    one with a [removeItem] on a transformed key with an entry and stays
    otherwise. *)
Theorem length_after_setItem_removeItem this k v s :
  (∀ s' i, (i < storage_length s')%nat → is_Some (storage_key i s')) →
  length this (setItem this k v s)
  = match storage_getItem (hash this k) s with
    | Some _ => length this s
    | None => Datatypes.S (length this s)
    end
  ∧ length this s
    = match storage_getItem (hash this k) s with
      | Some _ => Datatypes.S (length this (removeItem this k s))
      | None => length this (removeItem this k s)
      end.
Proof.
  intros Hdense.
  assert (∀ s', List.length (keys this s') = length this s') as Hlen.
  { intros s'. apply length_keys_dense. intros i Hi. by apply Hdense. }
  rewrite <- !Hlen. split; [apply length_keys_setItem | apply length_keys_removeItem].
Qed.

(** X8.  After [clear()], [keys()], [values()] and [entries()] are empty,
    through every facade on the store, and none of them throws. *)
Theorem enumerations_after_clear this other s :
  keys other (clear this s) = []
  ∧ values other (clear this s) = Ok []
  ∧ entries other (clear this s) = Ok [].
Proof.
  assert (keys other (clear this s) = []) as Hkeys.
  { rewrite keys_storage_key. unfold clear. by rewrite length_clear. }
  unfold values, entries. by rewrite Hkeys.
Qed.

(** X9.  A write through one facade does not change what any facade reads
    under a key whose transformed key is another one. *)
Theorem getItem_after_setItem_other this other k k' v s :
  hash other k' ≠ hash this k →
  getItem other k' (setItem this k v s) = getItem other k' s.
Proof.
  intros Hne. apply getItem_same_raw. by apply storage_getItem_setItem_other.
Qed.

(** X10.  A removal through one facade does not change what any facade
    reads under a key whose transformed key is another one. *)
Theorem getItem_after_removeItem_other this other k k' s :
  hash other k' ≠ hash this k →
  getItem other k' (removeItem this k s) = getItem other k' s.
Proof.
  intros Hne. apply getItem_same_raw. by apply storage_getItem_removeItem_other.
Qed.

(** X11.  Two keys with the same transformed key are one entry: removing
    one makes the other read as [null], and writing one replaces what the
    other reads. *)
Theorem colliding_keys_share_entry this k k' v s :
  hash this k' = hash this k →
  getItem this k (removeItem this k' (setItem this k v s)) = Ok null
  ∧ ∀ v', JSON_representable v' →
          exact_inverse (decrypt this) (encrypt this) →
          getItem this k (setItem this k' v' (setItem this k v s)) = Ok v'.
Proof.
  intros Hcoll. split.
  - apply getItem_missing. rewrite <- Hcoll. apply storage_getItem_removeItem.
  - intros v' Hv' Hinv. eapply getItem_raw.
    + rewrite <- Hcoll. apply storage_getItem_setItem.
    + by rewrite Hinv.
Qed.

(** X12.  A value written through one facade is read back through another
    facade on the same store when the two transform the key alike and the
    reader's decoder inverts the writer's encoder. *)
Theorem getItem_through_other_facade this other k v s :
  hash other k = hash this k →
  exact_inverse (decrypt other) (encrypt this) →
  JSON_representable v →
  getItem other k (setItem this k v s) = Ok v.
Proof.
  intros Hhash Hinv Hv. eapply getItem_raw.
  - rewrite Hhash. apply storage_getItem_setItem.
  - by rewrite Hinv.
Qed.


(** X14.  When the key transform leaves every stored key as it is (the
    identity does), each pair of [entries()] is a stored key with the
    decoding of its own raw text, never the [null] of a missed lookup; and
    [entries()] returns whenever every stored text decodes. *)
Theorem entries_own_values this s :
  (∀ p, p ∈ keys this s → hash this p = p) →
  (∀ es, entries this s = Ok es →
         Forall (fun e => ∃ raw, storage_getItem e.1 s = Some raw
                                 ∧ JSON_parse (decrypt this raw) = Ok e.2) es)
  ∧ ((∀ p raw, storage_getItem p s = Some raw →
               ∃ v, JSON_parse (decrypt this raw) = Ok v) →
     ∃ es, entries this s = Ok es).
Proof.
  intros Hfix.
  assert (∀ p, p ∈ keys this s →
               ∃ raw, storage_getItem p s = Some raw
                      ∧ getItem this p s = JSON_parse (decrypt this raw)) as Hown.
  { intros p Hp. pose proof Hp as [raw Hraw]%elem_of_keys. exists raw.
    split; [done|]. unfold getItem. cbn. by rewrite (Hfix p Hp), Hraw. }
  split.
  - intros es Hes. unfold entries in Hes. apply array_map_Ok in Hes.
    apply Forall_forall. intros [p v] Hin.
    apply list_elem_of_lookup in Hin as [i Hi].
    destruct (Forall2_lookup_r _ _ _ _ _ Hes Hi) as (q & Hq & Hget).
    apply list_elem_of_lookup_2 in Hq. destruct (Hown q Hq) as (raw & Hraw & Hread).
    rewrite Hread in Hget. destruct (JSON_parse (decrypt this raw)) as [w|] eqn:Hw; [|done].
    cbn in Hget. injection Hget as -> ->. by exists raw.
  - intros Hdecodes.
    cut (∃ es, Forall2 (fun p e => (w ← getItem this p s; Ok (p, w)) = Ok e) (keys this s) es).
    { intros [es Hes]. exists es. by apply array_map_Ok. }
    assert (Forall (fun p => p ∈ keys this s) (keys this s)) as Hall
      by by apply Forall_forall.
    induction Hall as [|p l Hp _ [es IH]]; [by exists []|].
    destruct (Hown p Hp) as (raw & Hraw & Hread).
    destruct (Hdecodes p raw Hraw) as [w Hw].
    exists ((p, w) :: es). constructor; [|done]. by rewrite Hread, Hw.
Qed.

(** X15.  A facade constructed with neither [encrypt] nor [decrypt],
    whatever its [hash], stores the JSON text itself and reads back every
    JSON-representable value. *)
Theorem constructor_without_ciphers options k v s :
  opt_encrypt options = None →
  opt_decrypt options = None →
  JSON_representable v →
  storage_getItem (hash (constructor options) k) (setItem (constructor options) k v s)
  = Some (JSON_stringify v)
  ∧ getItem (constructor options) k (setItem (constructor options) k v s) = Ok v.
Proof.
  intros He Hd Hv.
  assert (storage_getItem (hash (constructor options) k)
            (setItem (constructor options) k v s) = Some (JSON_stringify v)) as Hraw.
  { rewrite storage_getItem_setItem. cbn. by rewrite He. }
  split; [done|]. eapply getItem_raw; [exact Hraw|]. cbn. by rewrite Hd.
Qed.

(** X16.  The constructor does not pair the two ciphers: with [encrypt]
    given and [decrypt] left out, reading a written key applies
    [JSON.parse] to the text still encoded. *)
Theorem constructor_encrypt_without_decrypt options e k v s :
  opt_encrypt options = Some e →
  opt_decrypt options = None →
  getItem (constructor options) k (setItem (constructor options) k v s)
  = JSON_parse (e (JSON_stringify v)).
Proof.
  intros He Hd. unfold getItem. cbn beta zeta.
  rewrite storage_getItem_setItem. cbn. by rewrite He, Hd.
Qed.

(** X17.  Writing a key whose transformed key had no entry and removing it
    again leaves every read as before, through every facade, and [keys()]
    with the same elements. *)
Theorem removeItem_undoes_fresh_setItem this other k k' v s :
  storage_getItem (hash this k) s = None →
  getItem other k' (removeItem this k (setItem this k v s)) = getItem other k' s
  ∧ keys other (removeItem this k (setItem this k v s)) ≡ₚ keys other s.
Proof.
  intros Hfresh.
  assert (∀ p, storage_getItem p (removeItem this k (setItem this k v s))
               = storage_getItem p s) as Hraw.
  { intros p. destruct (decide (p = hash this k)) as [->|Hp].
    - by rewrite storage_getItem_removeItem, Hfresh.
    - by rewrite storage_getItem_removeItem_other, storage_getItem_setItem_other. }
  split; [apply getItem_same_raw, Hraw|].
  apply NoDup_Permutation; [apply keys_NoDup..|].
  intros p. by rewrite !elem_of_keys, Hraw.
Qed.

End MoreLawful.
End More.

(** ** Witnesses of the further properties *)

(** The finite-map store answers a key at every position below its count. *)
Lemma web_storage_dense (m : web_storage) i :
  (i < storage_length m)%nat → is_Some (storage_key i m).
Proof.
  cbn. intros Hi. apply lookup_lt_is_Some.
  by rewrite length_fmap, length_map_to_list.
Qed.

Lemma keys_lookup_key_witness :
  List.length (keys plain sample_storage) = length plain sample_storage
  ∧ keys plain sample_storage !! 1 = key plain 1 sample_storage.
Proof.
  destruct (keys_lookup_key plain sample_storage) as [Hlen Hat].
  - intros i Hi. by apply web_storage_dense.
  - split; [exact Hlen|]. apply Hat. vm_compute. lia.
Defined.

Lemma keys_after_setItem_witness :
  List.length (keys filed_scrambled (setItem filed_scrambled "gamma" (Number 3) sample_storage))
  = Datatypes.S (List.length (keys filed_scrambled sample_storage))
  ∧ List.length (keys plain (setItem plain "alpha" (Number 3) sample_storage))
    = List.length (keys plain sample_storage).
Proof.
  split.
  - exact (proj2 (keys_after_setItem filed_scrambled "gamma" (Number 3) sample_storage)).
  - exact (proj2 (keys_after_setItem plain "alpha" (Number 3) sample_storage)).
Defined.

Lemma keys_after_removeItem_witness :
  List.length (keys plain sample_storage)
  = Datatypes.S (List.length (keys plain (removeItem plain "alpha" sample_storage)))
  ∧ List.length (keys plain sample_storage)
    = List.length (keys plain (removeItem plain "gamma" sample_storage)).
Proof.
  split.
  - exact (proj2 (keys_after_removeItem plain "alpha" sample_storage)).
  - exact (proj2 (keys_after_removeItem plain "gamma" sample_storage)).
Defined.

Lemma length_after_setItem_removeItem_witness :
  length plain (setItem plain "gamma" sample_value sample_storage)
  = Datatypes.S (length plain sample_storage)
  ∧ length plain (setItem plain "gamma" sample_value sample_storage)
    = Datatypes.S (length plain (removeItem plain "gamma"
                     (setItem plain "gamma" sample_value sample_storage))).
Proof.
  split.
  - exact (proj1 (length_after_setItem_removeItem plain "gamma" sample_value
                    sample_storage web_storage_dense)).
  - exact (proj2 (length_after_setItem_removeItem plain "gamma" sample_value
                    (setItem plain "gamma" sample_value sample_storage) web_storage_dense)).
Defined.

Lemma enumerations_after_clear_witness :
  keys plain (clear filed_scrambled sample_storage) = []
  ∧ values plain (clear filed_scrambled sample_storage) = Ok []
  ∧ entries plain (clear filed_scrambled sample_storage) = Ok [].
Proof. exact (enumerations_after_clear filed_scrambled plain sample_storage). Defined.

Lemma getItem_after_setItem_other_witness :
  hash plain "alpha" ≠ hash filed_scrambled "beta"
  ∧ getItem plain "alpha" (setItem filed_scrambled "beta" sample_value sample_storage)
    = getItem plain "alpha" sample_storage.
Proof.
  assert (hash plain "alpha" ≠ hash filed_scrambled "beta") as Hne
    by (vm_compute; discriminate).
  split; [exact Hne|].
  exact (getItem_after_setItem_other filed_scrambled plain "beta" "alpha"
           sample_value sample_storage Hne).
Defined.

Lemma getItem_after_removeItem_other_witness :
  hash plain "alpha" ≠ hash plain "beta"
  ∧ getItem plain "alpha" (removeItem plain "beta" sample_storage)
    = getItem plain "alpha" sample_storage.
Proof.
  assert (hash plain "alpha" ≠ hash plain "beta") as Hne
    by (vm_compute; discriminate).
  split; [exact Hne|].
  exact (getItem_after_removeItem_other plain plain "beta" "alpha" sample_storage Hne).
Defined.

Lemma colliding_keys_share_entry_witness :
  hash filed_scrambled "ac" = hash filed_scrambled "ab"
  ∧ getItem filed_scrambled "ab"
      (removeItem filed_scrambled "ac"
         (setItem filed_scrambled "ab" sample_value empty_storage)) = Ok Null
  ∧ getItem filed_scrambled "ab"
      (setItem filed_scrambled "ac" (Number 2)
         (setItem filed_scrambled "ab" sample_value empty_storage)) = Ok (Number 2).
Proof.
  destruct (colliding_keys_share_entry filed_scrambled "ab" "ac" sample_value
              empty_storage eq_refl) as [Hremoved Hreplaced].
  split; [reflexivity|]. split; [exact Hremoved|].
  apply Hreplaced; [apply every_value_JSON_representable | apply scramble_involutive].
Defined.

Lemma getItem_through_other_facade_witness :
  getItem filed_reader "alpha"
    (setItem filed_scrambled "alpha" sample_value empty_storage)
  = Ok sample_value.
Proof.
  apply (getItem_through_other_facade filed_scrambled filed_reader).
  - reflexivity.
  - apply scramble_involutive.
  - apply every_value_JSON_representable.
Defined.


Lemma entries_own_values_witness :
  Forall (fun e => ∃ raw, storage_getItem e.1 sample_storage = Some raw
                          ∧ JSON_parse (decrypt plain raw) = Ok e.2)
    [("alpha", Number 1); ("beta", Array [Bool true])]
  ∧ ∃ es, entries plain sample_storage = Ok es.
Proof.
  destruct (entries_own_values plain sample_storage) as [Hown Hreturns].
  - intros p _. reflexivity.
  - split; [apply Hown; reflexivity|].
    apply Hreturns. intros p raw Hraw.
    change (<["beta" := "[true]"]> (<["alpha" := "1"]> (∅ : web_storage)) !! p = Some raw)
      in Hraw.
    apply lookup_insert_Some in Hraw as [[_ <-]|[_ Hraw]]; [by eexists|].
    apply lookup_insert_Some in Hraw as [[_ <-]|[_ Hraw]]; [by eexists|].
    by rewrite lookup_empty in Hraw.
Defined.

Lemma constructor_without_ciphers_witness :
  storage_getItem "a" (setItem (constructor hash_only) "alpha" (Str "hi") empty_storage)
  = Some (stringify (Str "hi"))
  ∧ getItem (constructor hash_only) "alpha"
      (setItem (constructor hash_only) "alpha" (Str "hi") empty_storage)
    = Ok (Str "hi").
Proof.
  exact (constructor_without_ciphers hash_only "alpha" (Str "hi") empty_storage
           eq_refl eq_refl (every_value_JSON_representable (Str "hi"))).
Defined.

Lemma constructor_encrypt_without_decrypt_witness :
  getItem (constructor encrypt_only) "alpha"
    (setItem (constructor encrypt_only) "alpha" (Number 7) empty_storage)
  = Ok (Number 6).
Proof.
  exact (constructor_encrypt_without_decrypt encrypt_only scramble "alpha" (Number 7)
           empty_storage eq_refl eq_refl).
Defined.

Lemma removeItem_undoes_fresh_setItem_witness :
  storage_getItem (hash filed_scrambled "gamma") sample_storage = None
  ∧ getItem plain "alpha"
      (removeItem filed_scrambled "gamma"
         (setItem filed_scrambled "gamma" sample_value sample_storage))
    = getItem plain "alpha" sample_storage.
Proof.
  split; [reflexivity|].
  exact (proj1 (removeItem_undoes_fresh_setItem filed_scrambled plain "gamma" "alpha"
                  sample_value sample_storage eq_refl)).
Defined.


Lemma getItem_throwing_propagates_witness :
  getItem_throwing (Value := value)
    {| hash_throwing := failing_transform;
       encrypt_throwing := failing_transform;
       decrypt_throwing := failing_transform |} "alpha" sample_storage
  = Throw (SyntaxError "transform failed")
  ∧ getItem_throwing
      (json := {| null := Null; JSON_stringify := stringify; JSON_parse := fun text => Ok Null |})
      {| hash_throwing := fun key => Ok key;
         encrypt_throwing := failing_transform;
         decrypt_throwing := failing_transform |} "alpha" sample_storage
    = Throw (SyntaxError "transform failed").
Proof.
  split.
  - apply (getItem_throwing_propagates (json := JsonText_JSON)). reflexivity.
  - apply (proj2 (getItem_throwing_propagates (json := JsonText_JSON)
                    {| hash_throwing := fun key => Ok key;
                       encrypt_throwing := failing_transform;
                       decrypt_throwing := failing_transform |} "alpha" sample_storage
                    (SyntaxError "transform failed")) "alpha" "1").
    + reflexivity.
    + reflexivity.
    + reflexivity.
Defined.
